(** * AsyncBaseCache: a verified model of the cache abstraction layer

    The development embeds [src/async-base-cache.ts] in Rocq.

    - JavaScript values of type [any] are modelled by [value]: the JSON data
      values (null, booleans, integral numbers, strings, arrays and plain
      objects).  Strings are sequences of code units below 256; numbers are
      the safe integers (see [print_num] and [encodable]).
    - [JSON.stringify], [JSON.parse], [ToString] and the MD5 digest of
      Node's [crypto] module are written out on these values, so that every
      method of the class can be evaluated on concrete inputs.
    - Objects used as dictionaries ([keyMap], [values], [results], [data],
      [items]) are the lists of their own enumerable properties, in the
      order in which JavaScript enumerates them.  An assignment [o[k] = v]
      is [put]: it keeps that order and creates no property under the
      name [__proto__]; a read [o[k]] is [obj_member]: it finds the
      members that a plain object inherits from [Object.prototype]; the
      walk of [_.forEach] is [forEach]: it goes by index over an object
      with a numeric [length].  The value [undefined] and the functions
      of [Object.prototype] are no values of the model: the places where
      a run meets them are marked in the definitions, and the statements
      that depend on them exclude them by hypothesis.
    - The abstract methods of the class form the type class [Backend]; the
      fields of an instance form the record [Cache]; the asynchronous
      methods, whose awaits follow one another, run in the monad [M]; the
      callbacks of [setValues] and [addValues], which nobody awaits, run on
      an explicit job queue. *)

From Stdlib Require Import Decimal DecimalFacts DecimalPos DecimalN.
From Stdlib Require Import ZArith NArith Bool Lia Arith Ascii String List.
From Stdlib Require Import Permutation.
Import ListNotations.

Local Open Scope list_scope.

(* ================================================================== *)
(** * Part I: definitions                                              *)
(* ================================================================== *)

(** ** JavaScript values *)

Unset Elimination Schemes.

Inductive value : Type :=
| VNull
| VBool (b : bool)
| VNum (n : Z)
| VStr (s : string)
| VArr (vs : list value)
| VObj (ps : list (string * value)).

Set Elimination Schemes.

(** The value [false], which the class uses as its absence sentinel. *)
Definition absent : value := VBool false.

(** [v === false] *)
Definition is_false (v : value) : bool :=
  match v with
  | VBool false => true
  | _ => false
  end.

(** ** Characters and text *)

Definition chars (s : string) : list ascii := list_ascii_of_string s.
Definition text (l : list ascii) : string := string_of_list_ascii l.

Definition dquote : ascii := "034"%char.
Definition backslash : ascii := "092"%char.

Definition code (c : ascii) : N := N_of_ascii c.

Definition hex_chars : list ascii := chars "0123456789abcdef".

Definition hex_digit (n : N) : ascii := nth (N.to_nat n) hex_chars "0"%char.

(** [sep]-separated concatenation, as [Array.prototype.join] and the
    element lists of [JSON.stringify]. *)
Fixpoint join (sep : list ascii) (parts : list (list ascii)) : list ascii :=
  match parts with
  | [] => []
  | [p] => p
  | p :: rest => p ++ sep ++ join sep rest
  end.

(** ** Decimal numerals *)

Fixpoint print_uint (d : uint) : list ascii :=
  match d with
  | Nil => []
  | D0 d => "0"%char :: print_uint d
  | D1 d => "1"%char :: print_uint d
  | D2 d => "2"%char :: print_uint d
  | D3 d => "3"%char :: print_uint d
  | D4 d => "4"%char :: print_uint d
  | D5 d => "5"%char :: print_uint d
  | D6 d => "6"%char :: print_uint d
  | D7 d => "7"%char :: print_uint d
  | D8 d => "8"%char :: print_uint d
  | D9 d => "9"%char :: print_uint d
  end.

(** Number::toString for a safe integer (at most 2^53 - 1 in absolute
    value): its decimal digits.  The other integers of [Z] are no numbers
    of the model: beyond 2^53 not every integer is a JavaScript number,
    and from 10^21 on JavaScript prints an exponent.  The values all of
    whose numbers are safe integers are the [encodable] ones. *)
Definition print_num (n : Z) : list ascii :=
  match n with
  | Zneg p => "-"%char :: print_uint (Pos.to_uint p)
  | _ => print_uint (N.to_uint (Z.to_N n))
  end.

Definition digit_of (c : ascii) : option (uint -> uint) :=
  match c with
  | "0"%char => Some D0
  | "1"%char => Some D1
  | "2"%char => Some D2
  | "3"%char => Some D3
  | "4"%char => Some D4
  | "5"%char => Some D5
  | "6"%char => Some D6
  | "7"%char => Some D7
  | "8"%char => Some D8
  | "9"%char => Some D9
  | _ => None
  end.

Definition is_digit (c : ascii) : bool :=
  match digit_of c with
  | Some _ => true
  | None => false
  end.

(** The longest run of digits at the head of the input. *)
Fixpoint take_digits (s : list ascii) : uint * list ascii :=
  match s with
  | [] => (Nil, [])
  | c :: r =>
      match digit_of c with
      | Some d => let (u, rest) := take_digits r in (d u, rest)
      | None => (Nil, s)
      end
  end.

(** The JSON grammar of the integer part: [0] or a digit run that does not
    start with [0]. *)
Definition int_literal (u : uint) : bool :=
  match u with
  | Nil => false
  | D0 Nil => true
  | D0 _ => false
  | _ => true
  end.

(** A fraction or an exponent follows; such numerals lie outside [VNum]. *)
Definition starts_fraction (s : list ascii) : bool :=
  match s with
  | "."%char :: _ => true
  | "e"%char :: _ => true
  | "E"%char :: _ => true
  | _ => false
  end.

(** ** JSON.stringify *)

(** QuoteJSONString, one code unit at a time. *)
Definition quote_char (c : ascii) : list ascii :=
  if Ascii.eqb c dquote then [backslash; dquote]
  else if Ascii.eqb c backslash then [backslash; backslash]
  else if N.eqb (code c) 8 then [backslash; "b"%char]
  else if N.eqb (code c) 9 then [backslash; "t"%char]
  else if N.eqb (code c) 10 then [backslash; "n"%char]
  else if N.eqb (code c) 12 then [backslash; "f"%char]
  else if N.eqb (code c) 13 then [backslash; "r"%char]
  else if N.ltb (code c) 32 then
    [backslash; "u"%char; "0"%char; "0"%char;
     hex_digit (N.div (code c) 16); hex_digit (N.modulo (code c) 16)]
  else [c].

Definition quote (s : string) : list ascii :=
  dquote :: flat_map quote_char (chars s) ++ [dquote].

Fixpoint print (v : value) : list ascii :=
  match v with
  | VNull => chars "null"
  | VBool true => chars "true"
  | VBool false => chars "false"
  | VNum n => print_num n
  | VStr s => quote s
  | VArr vs => "["%char :: join [","%char] (map print vs) ++ ["]"%char]
  | VObj ps =>
      "{"%char ::
        join [","%char]
          (map (fun p => quote (fst p) ++ ":"%char :: print (snd p)) ps)
        ++ ["}"%char]
  end.

Definition JSON_stringify (v : value) : string := text (print v).

(** ** JSON.parse *)

Definition is_ws (c : ascii) : bool :=
  N.eqb (code c) 32 || N.eqb (code c) 9 || N.eqb (code c) 10
  || N.eqb (code c) 13.

Fixpoint skip_ws (s : list ascii) : list ascii :=
  match s with
  | c :: r => if is_ws c then skip_ws r else s
  | [] => []
  end.

Definition hex_value (c : ascii) : option N :=
  let n := code c in
  if N.leb 48 n && N.leb n 57 then Some (n - 48)%N
  else if N.leb 97 n && N.leb n 102 then Some (n - 87)%N
  else if N.leb 65 n && N.leb n 70 then Some (n - 55)%N
  else None.

(** The code unit written [\uXXXX]; [None] when a digit is not
    hexadecimal or the code unit is 256 or more. *)
Definition unicode_escape (a b c d : ascii) : option ascii :=
  match hex_value a, hex_value b, hex_value c, hex_value d with
  | Some 0%N, Some 0%N, Some h, Some l => Some (ascii_of_N (16 * h + l)%N)
  | _, _, _, _ => None
  end.

Definition simple_escape (c : ascii) : option ascii :=
  if Ascii.eqb c dquote then Some dquote
  else if Ascii.eqb c backslash then Some backslash
  else
    match c with
    | "/"%char => Some "/"%char
    | "b"%char => Some "008"%char
    | "t"%char => Some "009"%char
    | "n"%char => Some "010"%char
    | "f"%char => Some "012"%char
    | "r"%char => Some "013"%char
    | _ => None
    end.

(** The characters of a string literal after its opening quote, up to and
    including the closing quote. *)
Fixpoint parse_string (s : list ascii) : option (list ascii * list ascii) :=
  match s with
  | [] => None
  | c :: r =>
      if Ascii.eqb c dquote then Some ([], r)
      else if Ascii.eqb c backslash then
        match r with
        | "u"%char :: h1 :: h2 :: h3 :: h4 :: r' =>
            match unicode_escape h1 h2 h3 h4, parse_string r' with
            | Some u, Some (body, rest) => Some (u :: body, rest)
            | _, _ => None
            end
        | e :: r' =>
            match simple_escape e, parse_string r' with
            | Some u, Some (body, rest) => Some (u :: body, rest)
            | _, _ => None
            end
        | [] => None
        end
      else if N.ltb (code c) 32 then None
      else
        match parse_string r with
        | Some (body, rest) => Some (c :: body, rest)
        | None => None
        end
  end.

(** An integer literal without sign, of a safe integer: beyond 2^53 - 1
    [JSON.parse] rounds to the nearest number, which [VNum] does not
    express. *)
Definition parse_nat (s : list ascii) : option (N * list ascii) :=
  let (u, rest) := take_digits s in
  if int_literal u && negb (starts_fraction rest)
     && (N.of_uint u <=? 9007199254740991)%N
  then Some (N.of_uint u, rest)
  else None.

(** Sets the entry of [k]: the first entry of that name is updated where
    it is, a new name goes last.  [JSON.parse] files the members of an
    object this way, in the order of the text. *)
Fixpoint obj_set {A : Type} (o : list (string * A)) (k : string) (v : A)
  : list (string * A) :=
  match o with
  | [] => [(k, v)]
  | (k', v') :: r =>
      if String.eqb k' k then (k', v) :: r else (k', v') :: obj_set r k v
  end.

(** [o[k]]; [None] stands for [undefined]. *)
Fixpoint obj_get {A : Type} (o : list (string * A)) (k : string) : option A :=
  match o with
  | [] => None
  | (k', v) :: r => if String.eqb k' k then Some v else obj_get r k
  end.

(** Removes the keyword [pre] from the head of the input. *)
Fixpoint strip (pre s : list ascii) : option (list ascii) :=
  match pre, s with
  | [], _ => Some s
  | p :: pre', c :: s' => if Ascii.eqb p c then strip pre' s' else None
  | _ :: _, [] => None
  end.

(** [c] is the character written [d]. *)
Definition char_is (d c : ascii) : bool := Ascii.eqb c d.

(** The recursive-descent parser; [fuel] bounds the nesting and the
    number of elements visited. *)
Fixpoint parse_value (fuel : nat) (s : list ascii)
  : option (value * list ascii) :=
  match fuel with
  | O => None
  | S fuel =>
      match skip_ws s with
      | [] => None
      | c :: r =>
          if char_is "n" c then option_map (pair VNull) (strip (chars "ull") r)
          else if char_is "t" c then
            option_map (pair (VBool true)) (strip (chars "rue") r)
          else if char_is "f" c then
            option_map (pair (VBool false)) (strip (chars "alse") r)
          else if char_is dquote c then
            match parse_string r with
            | Some (body, rest) => Some (VStr (text body), rest)
            | None => None
            end
          else if char_is "[" c then
            match skip_ws r with
            | c' :: rest =>
                if char_is "]" c' then Some (VArr [], rest)
                else parse_elements fuel r []
            | [] => None
            end
          else if char_is "{" c then
            match skip_ws r with
            | c' :: rest =>
                if char_is "}" c' then Some (VObj [], rest)
                else parse_members fuel r []
            | [] => None
            end
          else if char_is "-" c then
            match parse_nat r with
            | Some (n, rest) => Some (VNum (- Z.of_N n), rest)
            | None => None
            end
          else
            match parse_nat (c :: r) with
            | Some (n, rest) => Some (VNum (Z.of_N n), rest)
            | None => None
            end
      end
  end

with parse_elements (fuel : nat) (s : list ascii) (acc : list value)
  : option (value * list ascii) :=
  match fuel with
  | O => None
  | S fuel =>
      match parse_value fuel s with
      | Some (v, r) =>
          match skip_ws r with
          | c :: rest =>
              if char_is "," c then parse_elements fuel rest (v :: acc)
              else if char_is "]" c then Some (VArr (List.rev (v :: acc)), rest)
              else None
          | [] => None
          end
      | None => None
      end
  end

with parse_members (fuel : nat) (s : list ascii) (acc : list (string * value))
  : option (value * list ascii) :=
  match fuel with
  | O => None
  | S fuel =>
      match skip_ws s with
      | c :: r =>
          if char_is dquote c then
            match parse_string r with
            | Some (k, r1) =>
                match skip_ws r1 with
                | c1 :: r2 =>
                    if char_is ":" c1 then
                      match parse_value fuel r2 with
                      | Some (v, r3) =>
                          match skip_ws r3 with
                          | c3 :: rest =>
                              if char_is "," c3 then
                                parse_members fuel rest
                                  (obj_set acc (text k) v)
                              else if char_is "}" c3 then
                                Some (VObj (obj_set acc (text k) v), rest)
                              else None
                          | [] => None
                          end
                      | None => None
                      end
                    else None
                | [] => None
                end
            | None => None
            end
          else None
      | [] => None
      end
  end.

(** [JSON.parse(t)]: [None] when the call throws a SyntaxError, or when
    the text denotes a value outside [value] (a numeral with a fraction or
    an exponent or beyond the safe integers, a code unit of 256 or
    more). *)
Definition JSON_parse (t : string) : option value :=
  match parse_value (S (String.length t)) (chars t) with
  | Some (v, rest) =>
      match skip_ws rest with
      | [] => Some v
      | _ => None
      end
  | None => None
  end.

(** ** ToString *)

(** The abstract operation ToString on the values of the model: what
    [JSON.parse] does to an argument that is not a string, and what a
    property access [o[k]] does to its key. *)
Fixpoint ToString (v : value) : list ascii :=
  match v with
  | VNull => chars "null"
  | VBool true => chars "true"
  | VBool false => chars "false"
  | VNum n => print_num n
  | VStr s => chars s
  | VArr vs =>
      join [","%char]
        (map (fun e => match e with VNull => [] | _ => ToString e end) vs)
  | VObj _ => chars "[object Object]"
  end.

(** ** MD5 *)

Local Open Scope Z_scope.

Definition w32 (x : Z) : Z := Z.land x 0xFFFFFFFF.

Definition rotl32 (x n : Z) : Z :=
  w32 (Z.lor (Z.shiftl x n) (Z.shiftr x (32 - n))).

Definition not32 (x : Z) : Z := Z.lxor x 0xFFFFFFFF.

Definition md5_K : list Z :=
    [0xd76aa478; 0xe8c7b756; 0x242070db; 0xc1bdceee;
     0xf57c0faf; 0x4787c62a; 0xa8304613; 0xfd469501;
     0x698098d8; 0x8b44f7af; 0xffff5bb1; 0x895cd7be;
     0x6b901122; 0xfd987193; 0xa679438e; 0x49b40821;
     0xf61e2562; 0xc040b340; 0x265e5a51; 0xe9b6c7aa;
     0xd62f105d; 0x02441453; 0xd8a1e681; 0xe7d3fbc8;
     0x21e1cde6; 0xc33707d6; 0xf4d50d87; 0x455a14ed;
     0xa9e3e905; 0xfcefa3f8; 0x676f02d9; 0x8d2a4c8a;
     0xfffa3942; 0x8771f681; 0x6d9d6122; 0xfde5380c;
     0xa4beea44; 0x4bdecfa9; 0xf6bb4b60; 0xbebfbc70;
     0x289b7ec6; 0xeaa127fa; 0xd4ef3085; 0x04881d05;
     0xd9d4d039; 0xe6db99e5; 0x1fa27cf8; 0xc4ac5665;
     0xf4292244; 0x432aff97; 0xab9423a7; 0xfc93a039;
     0x655b59c3; 0x8f0ccc92; 0xffeff47d; 0x85845dd1;
     0x6fa87e4f; 0xfe2ce6e0; 0xa3014314; 0x4e0811a1;
     0xf7537e82; 0xbd3af235; 0x2ad7d2bb; 0xeb86d391].

Definition md5_S : list Z :=
    [7; 12; 17; 22; 7; 12; 17; 22; 7; 12; 17; 22; 7; 12; 17; 22;
     5; 9; 14; 20; 5; 9; 14; 20; 5; 9; 14; 20; 5; 9; 14; 20;
     4; 11; 16; 23; 4; 11; 16; 23; 4; 11; 16; 23; 4; 11; 16; 23;
     6; 10; 15; 21; 6; 10; 15; 21; 6; 10; 15; 21; 6; 10; 15; 21].

Record md5_state : Type :=
  { md5_a : Z; md5_b : Z; md5_c : Z; md5_d : Z }.

Definition md5_init : md5_state :=
  {| md5_a := 0x67452301; md5_b := 0xefcdab89;
     md5_c := 0x98badcfe; md5_d := 0x10325476 |}.

(** One of the 64 operations of a block; [m] holds its 16 words. *)
Definition md5_round (m : list Z) (st : md5_state) (i : Z) : md5_state :=
  let '(Build_md5_state a b c d) := st in
  let '(f, g) :=
    if i <? 16 then (Z.lor (Z.land b c) (Z.land (not32 b) d), i)
    else if i <? 32 then
      (Z.lor (Z.land d b) (Z.land (not32 d) c), (5 * i + 1) mod 16)
    else if i <? 48 then (Z.lxor b (Z.lxor c d), (3 * i + 5) mod 16)
    else (Z.lxor c (Z.lor b (not32 d)), (7 * i) mod 16) in
  let sum :=
    w32 (f + a + nth (Z.to_nat i) md5_K 0 + nth (Z.to_nat g) m 0) in
  {| md5_a := d;
     md5_b := w32 (b + rotl32 sum (nth (Z.to_nat i) md5_S 0));
     md5_c := b;
     md5_d := c |}.

(** Little-endian word of four bytes. *)
Definition word_le (bs : list Z) : Z :=
  fold_right (fun b acc => b + 256 * acc) 0 bs.

Fixpoint words_le (n : nat) (bs : list Z) : list Z :=
  match n with
  | O => []
  | S n => word_le (firstn 4 bs) :: words_le n (skipn 4 bs)
  end.

Definition md5_block (st : md5_state) (block : list Z) : md5_state :=
  let m := words_le 16 block in
  let r := fold_left (md5_round m) (map Z.of_nat (seq 0 64)) st in
  {| md5_a := w32 (md5_a st + md5_a r);
     md5_b := w32 (md5_b st + md5_b r);
     md5_c := w32 (md5_c st + md5_c r);
     md5_d := w32 (md5_d st + md5_d r) |}.

Fixpoint md5_blocks (n : nat) (st : md5_state) (bs : list Z) : md5_state :=
  match n with
  | O => st
  | S n => md5_blocks n (md5_block st (firstn 64 bs)) (skipn 64 bs)
  end.

(** The [n] low bytes of [x], least significant first. *)
Fixpoint bytes_le (n : nat) (x : Z) : list Z :=
  match n with
  | O => []
  | S n => x mod 256 :: bytes_le n (x / 256)
  end.

Definition md5_pad (msg : list Z) : list Z :=
  let len := Z.of_nat (List.length msg) in
  let zeros := Z.to_nat ((55 - len) mod 64) in
  msg ++ 0x80 :: repeat 0 zeros ++ bytes_le 8 ((8 * len) mod 2 ^ 64).

Definition md5_digest (msg : list Z) : list Z :=
  let padded := md5_pad msg in
  let st := md5_blocks (List.length padded / 64) md5_init padded in
  bytes_le 4 (md5_a st) ++ bytes_le 4 (md5_b st)
  ++ bytes_le 4 (md5_c st) ++ bytes_le 4 (md5_d st).

Definition hex_byte (b : Z) : list ascii :=
  [hex_digit (Z.to_N (b / 16) mod 16); hex_digit (Z.to_N b mod 16)].

(** The UTF-8 bytes of a string of code units below 256. *)
Definition utf8 (s : list ascii) : list Z :=
  flat_map
    (fun c =>
       let n := Z.of_N (code c) in
       if n <? 128 then [n] else [192 + n / 64; 128 + n mod 64])
    s.

Local Close Scope Z_scope.

(** [crypto.createHash('md5').update(data).digest('hex')] *)
Definition mb5 (data : string) : string :=
  text (flat_map hex_byte (md5_digest (utf8 (chars data)))).

(** ** Promises, the backend and the cache object *)

(** When a promise settles: after [hops] further turns of the microtask
    queue ([Micro 0]: it is already settled when it is returned), or on
    a later I/O event ([Macro]). *)
Inductive latency : Type :=
| Micro (hops : nat)
| Macro.

(** What a primitive hands back: the value its promise is fulfilled with,
    the store once the request has been issued, and when the promise
    settles. *)
Record promise (S A : Type) : Type :=
  { result : A; after : S; settles : latency }.

Arguments result {S A} _.
Arguments after {S A} _.
Arguments settles {S A} _.

(** The five abstract methods of [AsyncBaseCache].  A primitive acts on
    the store [S] of the backend and returns a promise; [duration] is the
    lifetime in seconds that the caller asked for. *)
Class Backend (S : Type) : Type :=
  { getValue : string -> S -> promise S value;
    setValue : string -> value -> Z -> S -> promise S bool;
    addValue : string -> value -> Z -> S -> promise S bool;
    deleteValue : string -> S -> promise S bool;
    flushValues : S -> promise S bool }.

(** The instance: its two public fields and the storage behind it. *)
Record Cache (S : Type) : Type :=
  { keyPrefix : string; serialization : bool; store : S }.

Arguments keyPrefix {S} _.
Arguments serialization {S} _.
Arguments store {S} _.

Definition with_store {S : Type} (c : Cache S) (s : S) : Cache S :=
  {| keyPrefix := keyPrefix c; serialization := serialization c; store := s |}.

(** The outcome of an awaited call: the promise is fulfilled with a value
    of the model, or it is not.  [Rejected] stands for a promise that is
    rejected because [JSON.parse] threw, and also for a promise fulfilled
    with a value outside [value]: the value of a text that [JSON.parse]
    accepts and [JSON_parse] does not (a numeral with a fraction or an
    exponent or beyond the safe integers, a code unit of 256 or more), a
    member of
    [Object.prototype], or an object whose prototype has been replaced.
    A statement of this file asserts [Rejected] only where the code
    throws. *)
Inductive outcome (A : Type) : Type :=
| Fulfilled (a : A)
| Rejected.

Arguments Fulfilled {A} _.
Arguments Rejected {A}.

(** Methods whose awaits follow one another: a computation on the
    instance that may be rejected. *)
Definition M (S A : Type) : Type := Cache S -> outcome A * Cache S.

Definition ret {S A : Type} (a : A) : M S A := fun c => (Fulfilled a, c).

Definition bind {S A B : Type} (m : M S A) (f : A -> M S B) : M S B :=
  fun c =>
    match m c with
    | (Fulfilled a, c') => f a c'
    | (Rejected, c') => (Rejected, c')
    end.

Declare Scope cache_scope.
Delimit Scope cache_scope with cache.

Notation "x <- m ;; f" := (bind m (fun x => f))
  (at level 61, m at next level, right associativity) : cache_scope.

Local Open Scope cache_scope.

(** [this.keyPrefix], [this.serialization] *)
Definition read {S A : Type} (field : Cache S -> A) : M S A :=
  fun c => (Fulfilled (field c), c).

(** [await p] for a primitive [p] of the backend. *)
Definition await {S A : Type} (p : S -> promise S A) : M S A :=
  fun c =>
    let r := p (store c) in (Fulfilled (result r), with_store c (after r)).

(** [JSON.parse(v)], which may throw. *)
Definition decode {S : Type} (parse : string -> option value) (v : value)
  : M S value :=
  fun c =>
    match parse (text (ToString v)) with
    | Some d => (Fulfilled d, c)
    | None => (Rejected, c)
    end.

(** The call does not return a value of the model. *)
Definition reject {S A : Type} : M S A := fun c => (Rejected, c).

(** ** Plain objects used as dictionaries *)

(** An object used as a dictionary: its own enumerable properties, in the
    order in which JavaScript enumerates them (array indices in ascending
    order, then the other names in the order of their creation). *)
Definition dict (A : Type) : Type := list (string * A).

(** The number whose canonical text is [k]: [0], or digits that do not
    start with [0]. *)
Definition numeric_name (k : string) : option N :=
  let (u, rest) := take_digits (chars k) in
  match rest with
  | [] => if int_literal u then Some (N.of_uint u) else None
  | _ :: _ => None
  end.

(** An array index: an integer from 0 to 2^32 - 2. *)
Definition array_index (k : string) : option N :=
  match numeric_name k with
  | Some i => if (i <? 4294967295)%N then Some i else None
  | None => None
  end.

(** A new property whose name is the array index [i] goes before the
    first property that is no array index or a larger one. *)
Fixpoint place {A : Type} (o : dict A) (i : N) (k : string) (v : A)
  : dict A :=
  match o with
  | [] => [(k, v)]
  | (k', v') :: r =>
      match array_index k' with
      | Some j =>
          if (j <? i)%N then (k', v') :: place r i k v else (k, v) :: o
      | None => (k, v) :: o
      end
  end.

(** Creates the property [k], which [o] does not have. *)
Definition create {A : Type} (o : dict A) (k : string) (v : A) : dict A :=
  match array_index k with
  | Some i => place o i k v
  | None => o ++ [(k, v)]
  end.

Definition proto : string := "__proto__".

(** [o[k] = v] on a plain object.  An own property is updated where it
    is, a new one is created.  The name [__proto__], when [o] has no own
    property of that name, reaches the setter of [Object.prototype]: no
    property is created; the setter ignores a primitive [v], and makes an
    object or [null] the prototype of [o] (see [replaces_prototype]),
    which the dictionary does not record. *)
Definition put {A : Type} (o : dict A) (k : string) (v : A) : dict A :=
  match obj_get o k with
  | Some _ => obj_set o k v
  | None => if String.eqb k proto then o else create o k v
  end.

(** The values that the setter of [__proto__] accepts as a prototype. *)
Definition object_or_null (v : value) : bool :=
  match v with
  | VNull | VArr _ | VObj _ => true
  | _ => false
  end.

(** [o[k] = v] replaces the prototype of [o]: [k] is [__proto__], [o]
    has no own property of that name, and [v] is an object or [null]. *)
Definition replaces_prototype (o : dict value) (k : string) (v : value)
  : bool :=
  String.eqb k proto
  && match obj_get o k with Some _ => false | None => true end
  && object_or_null v.

(** The names of the properties of [Object.prototype]. *)
Definition inherited (k : string) : bool :=
  existsb (String.eqb k)
    ["constructor"; "__defineGetter__"; "__defineSetter__";
     "hasOwnProperty"; "__lookupGetter__"; "__lookupSetter__";
     "isPrototypeOf"; "propertyIsEnumerable"; "toString"; "valueOf";
     "__proto__"; "toLocaleString"]%string.

(** What [o[k]] finds in a plain object: an own property; a member of
    [Object.prototype] (a function, or for [__proto__] the prototype
    itself); or nothing, that is [undefined]. *)
Inductive member : Type :=
| Own (v : value)
| Host
| Missing.

Definition obj_member (o : dict value) (k : string) : member :=
  match obj_get o k with
  | Some v => Own v
  | None => if inherited k then Host else Missing
  end.

Definition MAX_SAFE_INTEGER : Z := 9007199254740991.

(** lodash [isLength] *)
Definition isLength (v : value) : bool :=
  match v with
  | VNum n => (0 <=? n)%Z && (n <=? MAX_SAFE_INTEGER)%Z
  | _ => false
  end.

(** lodash [isArrayLike] on a plain object, with [collection.length]:
    a plain object inherits no [length]. *)
Definition array_like (collection : dict value) : option N :=
  match obj_get collection "length" with
  | Some (VNum n) => if isLength (VNum n) then Some (Z.to_N n) else None
  | _ => None
  end.

(** Files the value [v] of the index [i] in a list sorted by index; the
    first property of a name is the one that a read finds. *)
Fixpoint by_index (acc : list (N * value)) (i : N) (v : value)
  : list (N * value) :=
  match acc with
  | [] => [(i, v)]
  | (j, w) :: r =>
      if (i <? j)%N then (i, v) :: acc
      else if (i =? j)%N then acc
      else (j, w) :: by_index r i v
  end.

(** The own properties of [o] whose name is an index below [n], by
    ascending index. *)
Definition indexed (o : dict value) (n : N) : list (N * value) :=
  fold_left
    (fun acc p =>
       match numeric_name (fst p) with
       | Some i => if (i <? n)%N then by_index acc i (snd p) else acc
       | None => acc
       end)
    o [].

(** The calls [iteratee(value, key)] that [_.forEach(collection,
    iteratee)] makes, as pairs of [key] and [value], when no call
    returns [false].  An object with a numeric [length] is walked by
    index, from 0 to [length - 1], with the numbers as keys; any other
    object is walked by its own properties, with their names as keys.
    In a walk by index, an index that is no own property hands the
    iteratee [undefined]; such a call is left out here, [undefined] being
    no value of the model. *)
Definition forEach (collection : dict value) : list (value * value) :=
  match array_like collection with
  | Some n =>
      map (fun p => (VNum (Z.of_N (fst p)), snd p)) (indexed collection n)
  | None => map (fun p => (VStr (fst p), snd p)) collection
  end.

(** ** The event loop for callbacks that nobody awaits *)

(** A microtask.  [Settle hops key ok]: the promise of the write of [key]
    settles with [ok] after [hops] further turns, and then the callback
    of [_.forEach] resumes after its [await].  [Resume hops]: the chain of
    awaits that leads from the batch writer back to the caller resumes
    after [hops] further turns. *)
Inductive job : Type :=
| Settle (hops : nat) (key : string) (ok : bool)
| Resume (hops : nat).

(** The array [failedKeys] shared by the batch writer, its callbacks and
    the caller; the microtask queue; the I/O completions still to come, in
    the order of the requests; and the contents of the array at the
    moment the caller resumed, if it has. *)
Record loop : Type :=
  { failedKeys : list string;
    microtasks : list job;
    completions : list (string * bool);
    caller_saw : option (list string) }.

Definition idle : loop :=
  {| failedKeys := []; microtasks := []; completions := [];
     caller_saw := None |}.

Definition enqueue (j : job) (w : loop) : loop :=
  {| failedKeys := failedKeys w;
     microtasks := microtasks w ++ [j];
     completions := completions w;
     caller_saw := caller_saw w |}.

(** The callback [async (value, key) => ...] has called the primitive and
    now waits for its promise. *)
Definition suspend (l : latency) (key : string) (ok : bool) (w : loop)
  : loop :=
  match l with
  | Micro hops => enqueue (Settle hops key ok) w
  | Macro =>
      {| failedKeys := failedKeys w;
         microtasks := microtasks w;
         completions := completions w ++ [(key, ok)];
         caller_saw := caller_saw w |}
  end.

Definition run_job (j : job) (w : loop) : loop :=
  match j with
  | Settle O key ok =>
      (* if (outcome === false) failedKeys.push(key) *)
      if ok then w
      else
        {| failedKeys := failedKeys w ++ [key];
           microtasks := microtasks w;
           completions := completions w;
           caller_saw := caller_saw w |}
  | Settle (S hops) key ok => enqueue (Settle hops key ok) w
  | Resume O =>
      {| failedKeys := failedKeys w;
         microtasks := microtasks w;
         completions := completions w;
         caller_saw := Some (failedKeys w) |}
  | Resume (S hops) => enqueue (Resume hops) w
  end.

(** One turn: the oldest microtask; with none left, the oldest I/O
    completion, which settles its promise. *)
Definition step (w : loop) : option loop :=
  match microtasks w with
  | j :: queue =>
      Some
        (run_job j
           {| failedKeys := failedKeys w;
              microtasks := queue;
              completions := completions w;
              caller_saw := caller_saw w |})
  | [] =>
      match completions w with
      | (key, ok) :: rest =>
          Some
            {| failedKeys := failedKeys w;
               microtasks := [Settle O key ok];
               completions := rest;
               caller_saw := caller_saw w |}
      | [] => None
      end
  end.

Fixpoint run (fuel : nat) (w : loop) : loop :=
  match fuel with
  | O => w
  | S fuel =>
      match step w with
      | Some w' => run fuel w'
      | None => w
      end
  end.

Definition job_weight (j : job) : nat :=
  match j with
  | Settle hops _ _ => S hops
  | Resume hops => S hops
  end.

(** The number of turns left. *)
Definition weight (w : loop) : nat :=
  list_sum (map job_weight (microtasks w)) + 2 * List.length (completions w).

(** Runs the loop until nothing is left to do. *)
Definition drain (w : loop) : loop := run (weight w) w.

Section Methods.

Context {S : Type} `{Backend S}.

(** *** buildKey *)

(** The branch [_.isString(key)] is the case [VStr]. *)
Definition normalize (key : value) : string :=
  match key with
  | VStr s => if String.length s <=? 32 then s else mb5 s
  | _ => mb5 (JSON_stringify key)
  end.

Definition buildKey (key : value) : M S string :=
  prefix <- read keyPrefix ;;
  ret (prefix ++ normalize key)%string.

(** *** get, exists *)

(** [get], with [JSON.parse] as the parameter [parse]. *)
Definition get_with (parse : string -> option value) (key : value)
  : M S value :=
  key <- buildKey key ;;
  value <- await (getValue key) ;;
  serialization <- read serialization ;;
  if is_false value || negb serialization then ret value
  else decode parse value.

Definition get : value -> M S value := get_with JSON_parse.

Definition exists_ (key : value) : M S bool :=
  key <- buildKey key ;;
  value <- await (getValue key) ;;
  ret (negb (is_false value)).

(** *** getValues, multiGet *)

(** The loop of [getValues].  The mapping it returns is a plain object:
    a run in which an assignment replaces the prototype of [results]
    leaves the model. *)
Fixpoint getValues_from (results : dict value) (keys : list string)
  : M S (dict value) :=
  match keys with
  | [] => ret results
  | key :: rest =>
      value <- await (getValue key) ;;
      if replaces_prototype results key value then reject
      else getValues_from (put results key value) rest
  end.

Definition getValues (keys : list string) : M S (dict value) :=
  getValues_from [] keys.

(** The loop [keyMap[key] = this.buildKey(key)]: a key is filed under
    its property name, [ToString(key)]. *)
Fixpoint keyMap_from (keyMap : dict string) (keys : list value)
  : M S (dict string) :=
  match keys with
  | [] => ret keyMap
  | key :: rest =>
      newKey <- buildKey key ;;
      keyMap_from (put keyMap (text (ToString key)) newKey) rest
  end.

(** The callback of [_.forEach(keyMap, ...)], for each property of
    [keyMap]: its values are strings, so it is walked by name.  When
    [values[newKey]] is a member of [Object.prototype], [JSON.parse]
    throws on its text with serialization on, and with serialization off
    the member itself becomes the entry. *)
Fixpoint results_from (parse : string -> option value)
  (values : dict value) (results : dict value) (keyMap : dict string)
  : M S (dict value) :=
  match keyMap with
  | [] => ret results
  | (key, newKey) :: rest =>
      let results := put results key absent in
      match obj_member values newKey with
      | Own value =>
          serialization <- read serialization ;;
          decoded <-
            (if negb serialization then ret value else decode parse value) ;;
          if replaces_prototype results key decoded then reject
          else results_from parse values (put results key decoded) rest
      | Host => reject
      | Missing => results_from parse values results rest
      end
  end.

(** [multiGet], with the method [this.getValues], which a backend may
    override, as the parameter [batch]. *)
Definition multiGet_with (batch : list string -> M S (dict value))
  (keys : list value) : M S (dict value) :=
  keyMap <- keyMap_from [] keys ;;
  values <- batch (map snd keyMap) ;;
  results_from JSON_parse values [] keyMap.

Definition multiGet : list value -> M S (dict value) :=
  multiGet_with getValues.

(** *** set, add, delete, flush *)

Definition encode (v : value) : M S value :=
  serialization <- read serialization ;;
  ret (if serialization then VStr (JSON_stringify v) else v).

Definition set (key value : value) (duration : Z) : M S bool :=
  key <- buildKey key ;;
  value <- encode value ;;
  await (setValue key value duration).

Definition add (key value : value) (duration : Z) : M S bool :=
  key <- buildKey key ;;
  value <- encode value ;;
  await (addValue key value duration).

Definition delete (key : value) : M S bool :=
  key <- buildKey key ;;
  await (deleteValue key).

Definition flush : M S bool := await flushValues.

(** *** setValues, addValues, multiSet, multiAdd *)

(** The body of [setValues] and [addValues] up to [return failedKeys]:
    [_.forEach] calls the callback on every property of [data], which it
    walks by name; each call issues its write and suspends at its
    [await].  A [data] with a numeric [length] would be walked by index,
    with numbers as the keys handed to the primitive, which the
    primitives of the model do not take: that needs a raw number filed
    under the Storage Key [length], or a raw array or object filed under
    [__proto__], both with serialization off.  The statements on
    [multiSet] and [multiAdd] that depend on the walk exclude these
    Storage Keys. *)
Fixpoint dispatch (write : string -> value -> Z -> S -> promise S bool)
  (data : dict value) (duration : Z) (s : S) (w : loop) : S * loop :=
  match data with
  | [] => (s, w)
  | (key, value) :: rest =>
      let p := write key value duration s in
      dispatch write rest duration (after p)
        (suspend (settles p) key (result p) w)
  end.

Definition setValues (data : dict value) (duration : Z) (s : S)
  : S * loop :=
  dispatch setValue data duration s idle.

Definition addValues (data : dict value) (duration : Z) (s : S)
  : S * loop :=
  dispatch addValue data duration s idle.

(** The callback of [_.forEach(items, ...)] in [multiSet] and
    [multiAdd], for each of the [calls] that [_.forEach] makes: it fills
    [data].  An assignment that replaces the prototype of [data] (a raw
    array, object or [null] filed under the Storage Key [__proto__]) is
    not recorded; see [dispatch]. *)
Fixpoint data_from (data : dict value) (calls : list (value * value))
  : M S (dict value) :=
  match calls with
  | [] => ret data
  | (key, value) :: rest =>
      value <- encode value ;;
      key <- buildKey key ;;
      data_from (put data key value) rest
  end.

(** [return await batch(data, duration)], awaited by the caller: the
    promise of [batch] is fulfilled with the array when [batch]
    returns; one turn later the method resumes and returns it, one turn
    after that the caller resumes and looks at it. *)
Definition awaited (batch : dict value -> Z -> S -> S * loop)
  (data : dict value) (duration : Z) : M S (list string) :=
  fun c =>
    let (s, w) := batch data duration (store c) in
    match caller_saw (drain (enqueue (Resume 1) w)) with
    | Some failed => (Fulfilled failed, with_store c s)
    | None => (Rejected, with_store c s)
    end.

Definition multiSet (items : dict value) (duration : Z)
  : M S (list string) :=
  data <- data_from [] (forEach items) ;;
  awaited setValues data duration.

Definition multiAdd (items : dict value) (duration : Z)
  : M S (list string) :=
  data <- data_from [] (forEach items) ;;
  awaited addValues data duration.

(** The array that [setValues] returned, once every callback has run. *)
Definition settled (batch : dict value -> Z -> S -> S * loop)
  (data : dict value) (duration : Z) (s : S) : list string :=
  failedKeys (drain (snd (batch data duration s))).

(** *** The public interface *)

Inductive call : Type :=
| CallBuildKey (key : value)
| CallGet (key : value)
| CallMultiGet (keys : list value)
| CallExists (key : value)
| CallSet (key value : value) (duration : Z)
| CallMultiSet (items : dict value) (duration : Z)
| CallAdd (key value : value) (duration : Z)
| CallMultiAdd (items : dict value) (duration : Z)
| CallDelete (key : value)
| CallFlush.

(** The instance after a call of a public method. *)
Definition after_call (m : call) (c : Cache S) : Cache S :=
  match m with
  | CallBuildKey key => snd (buildKey key c)
  | CallGet key => snd (get key c)
  | CallMultiGet keys => snd (multiGet keys c)
  | CallExists key => snd (exists_ key c)
  | CallSet key value duration => snd (set key value duration c)
  | CallMultiSet items duration => snd (multiSet items duration c)
  | CallAdd key value duration => snd (add key value duration c)
  | CallMultiAdd items duration => snd (multiAdd items duration c)
  | CallDelete key => snd (delete key c)
  | CallFlush => snd (flush c)
  end.

End Methods.

(** ** Two backends on which the methods are run *)

Definition settled_now {S A : Type} (a : A) (s : S) : promise S A :=
  {| result := a; after := s; settles := Micro 0 |}.

Definition settled_by_io {S A : Type} (a : A) (s : S) : promise S A :=
  {| result := a; after := s; settles := Macro |}.

Fixpoint obj_remove {A : Type} (o : dict A) (k : string) : dict A :=
  match o with
  | [] => []
  | (k', v) :: r =>
      if String.eqb k' k then obj_remove r k else (k', v) :: obj_remove r k
  end.

Definition lookup (o : dict value) (k : string) : value :=
  match obj_get o k with
  | Some v => v
  | None => absent
  end.

(** A store in the memory of the process: every request is served at
    once; entries do not expire. *)
Definition memory : Type := dict value.

#[export] Instance MemoryCache : Backend memory :=
  {| getValue := fun key s => settled_now (lookup s key) s;
     setValue := fun key v _ s => settled_now true (obj_set s key v);
     addValue := fun key v _ s =>
       match obj_get s key with
       | Some _ => settled_now false s
       | None => settled_now true (obj_set s key v)
       end;
     deleteValue := fun key s => settled_now true (obj_remove s key);
     flushValues := fun _ => settled_now true [] |}.

(** A replica reached over the network that refuses every write: each
    reply arrives with a later I/O event. *)
Record replica : Type := { contents : dict value }.

#[export] Instance ReplicaCache : Backend replica :=
  {| getValue := fun key s => settled_by_io (lookup (contents s) key) s;
     setValue := fun _ _ _ s => settled_by_io false s;
     addValue := fun _ _ _ s => settled_by_io false s;
     deleteValue := fun _ s => settled_by_io false s;
     flushValues := fun s => settled_by_io false s |}.

Definition new_cache {S : Type} (s : S) : Cache S :=
  {| keyPrefix := ""; serialization := true; store := s |}.

(** ** Vocabulary of the statements *)

(** The number of calls of the parser on the text of [v]. *)
Fixpoint size (v : value) : nat :=
  match v with
  | VArr vs => S (list_sum (map (fun e => S (size e)) vs))
  | VObj ps => S (list_sum (map (fun p => S (size (snd p))) ps))
  | _ => 1
  end.

Fixpoint distinct (ks : list string) : bool :=
  match ks with
  | [] => true
  | k :: rest => negb (existsb (String.eqb k) rest) && distinct rest
  end.

(** Number.isSafeInteger *)
Definition safe_integer (n : Z) : bool :=
  (Z.abs n <=? 9007199254740991)%Z.

(** The values that [JSON.stringify] renders without loss: numbers are
    safe integers and the keys of an object are pairwise distinct. *)
Fixpoint encodable (v : value) : bool :=
  match v with
  | VNum n => safe_integer n
  | VArr vs => forallb encodable vs
  | VObj ps =>
      distinct (map fst ps) && forallb (fun p => encodable (snd p)) ps
  | _ => true
  end.

(** The text that [buildKey] hashes. *)
Definition canonical (key : value) : string :=
  match key with
  | VStr s => s
  | _ => JSON_stringify key
  end.

(** The keys that [buildKey] hashes: strings of more than 32 characters
    and everything that is not a string. *)
Definition hashed (key : value) : bool :=
  match key with
  | VStr s => negb (String.length s <=? 32)
  | _ => true
  end.

Definition is_hex (c : ascii) : bool := existsb (Ascii.eqb c) hex_chars.

(** The rule by which [get] turns what the backend returned into its
    result. *)
Definition as_get (serialization : bool) (raw : value) : option value :=
  if is_false raw || negb serialization then Some raw
  else JSON_parse (text (ToString raw)).

(** The input leaves a numeral alone: it does not go on with a digit, a
    fraction or an exponent. *)
Definition delimited (rest : list ascii) : bool :=
  match rest with
  | [] => true
  | c :: _ => negb (is_digit c) && negb (starts_fraction rest)
  end.

(** The first character of the text of a value. *)
Definition opener (c : ascii) : bool :=
  is_digit c
  || existsb (Ascii.eqb c)
       ["n"; "t"; "f"; "-"; "["; "{"; dquote]%char.

(** [parse_value] reads the text of [v] back, whatever follows it. *)
Definition parses (v : value) : Prop :=
  forall fuel rest,
    size v <= fuel ->
    delimited rest = true ->
    parse_value fuel (print v ++ rest) = Some (v, rest).

(** The object that [parse_members] builds from the members [ps]. *)
Definition assemble (acc ps : dict value) : dict value :=
  fold_left (fun o p => obj_set o (fst p) (snd p)) ps acc.

(** The text of a member of an object. *)
Definition print_member (p : string * value) : list ascii :=
  quote (fst p) ++ ":"%char :: print (snd p).

(** The Storage Key of [key] for the instance [c]. *)
Definition storage_key {S : Type} (c : Cache S) (key : value) : string :=
  (keyPrefix c ++ normalize key)%string.

(** The contract of the write and read primitives: a value that was
    written with success is the value read next under the same key. *)
Definition keeps_writes (S : Type) `{Backend S} : Prop :=
  forall key v duration s,
    result (setValue key v duration s) = true ->
    result (getValue key (after (setValue key v duration s))) = v.

(** A method leaves the two configuration fields as they are. *)
Definition preserves_config {S A : Type} (m : M S A) : Prop :=
  forall c,
    keyPrefix (snd (m c)) = keyPrefix c
    /\ serialization (snd (m c)) = serialization c.

(** The calls of [getValue] that [getValues] makes, in order: each key
    with what its call returned, and the store after the last call. *)
Fixpoint reads {S : Type} `{Backend S} (keys : list string) (s : S)
  : dict value * S :=
  match keys with
  | [] => ([], s)
  | key :: rest =>
      let p := getValue key s in
      let (more, s') := reads rest (after p) in
      ((key, result p) :: more, s')
  end.


(** The entry of [results] for a Storage Key, given the result [values]
    of the batch read; [None] when [multiGet] returns no value of the
    model. *)
Definition entry_of (serialization : bool) (values : dict value)
  (newKey : string) : option value :=
  match obj_member values newKey with
  | Own raw => as_get serialization raw
  | Host => None
  | Missing => Some absent
  end.

(** The entries of [results] for a whole [keyMap]; [None] when one of
    them is. *)
Fixpoint entries (serialization : bool) (values : dict value)
  (keyMap : dict string) : option (dict value) :=
  match keyMap with
  | [] => Some []
  | (key, newKey) :: rest =>
      match entry_of serialization values newKey,
            entries serialization values rest with
      | Some e, Some es => Some ((key, e) :: es)
      | _, _ => None
      end
  end.

(** The calls of the write primitive that [setValues] and [addValues]
    make, in order: each Storage Key with the outcome of its write. *)
Fixpoint writes {S : Type}
  (write : string -> value -> Z -> S -> promise S bool)
  (data : dict value) (duration : Z) (s : S) : list (string * bool) :=
  match data with
  | [] => []
  | (key, v) :: rest =>
      let p := write key v duration s in
      (key, result p) :: writes write rest duration (after p)
  end.

(** The Storage Keys whose write failed, in the order of the calls. *)
Definition failures (outcomes : list (string * bool)) : list string :=
  map fst (filter (fun o => negb (snd o)) outcomes).

(** The push of [key] is still to come, or has happened. *)
Definition owed (w : loop) (key : string) : Prop :=
  In key (failedKeys w)
  \/ (exists hops, In (Settle hops key false) (microtasks w))
  \/ In (key, false) (completions w).

(** The caller has resumed, or will. *)
Definition resumes (w : loop) : Prop :=
  caller_saw w <> None \/ exists hops, In (Resume hops) (microtasks w).

(** The microtask of a callback whose write is already settled. *)
Definition settle_now (o : string * bool) : job := Settle 0 (fst o) (snd o).

(** An instance with the prefix [app:] over an empty store in memory. *)
Definition app_cache (serialization : bool) : Cache memory :=
  {| keyPrefix := "app:"; serialization := serialization; store := [] |}.

(** The contract of the delete primitive: a key deleted with success is
    absent at the next read. *)
Definition removes_deleted (S : Type) `{Backend S} : Prop :=
  forall key s,
    result (deleteValue key s) = true ->
    result (getValue key (after (deleteValue key s))) = absent.

(** The contract of the flush primitive: after a successful flush every
    key is absent. *)
Definition flush_empties (S : Type) `{Backend S} : Prop :=
  forall key s,
    result (flushValues s) = true ->
    result (getValue key (after (flushValues s))) = absent.

(** The contract of the write-if-absent primitive: on a key that is
    present it reports failure and leaves the entry as it is. *)
Definition add_refuses_present (S : Type) `{Backend S} : Prop :=
  forall key v duration s,
    result (getValue key s) <> absent ->
    result (addValue key v duration s) = false
    /\ result (getValue key (after (addValue key v duration s)))
       = result (getValue key s).

(** What [set] and [add] hand to the backend for the value [v]. *)
Definition stored_form (serialization : bool) (v : value) : value :=
  if serialization then VStr (JSON_stringify v) else v.

(** The dictionary [acc] after [o[name x] = content x] for each [x] of
    [xs] in turn. *)
Definition filed {X A : Type} (name : X -> string) (content : X -> A)
  (acc : dict A) (xs : list X) : dict A :=
  fold_left (fun o x => put o (name x) (content x)) xs acc.

(** The property name under which [keyMap[key]] and [results[key]] file
    the Cache Key [key]. *)
Definition property_name (key : value) : string := text (ToString key).

(** The [keyMap] that [multiGet] builds from its keys. *)
Definition keyMap_of {S : Type} (c : Cache S) (keys : list value)
  : dict string :=
  filed property_name (storage_key c) [] keys.

(** The last key of the list that is filed under [name]. *)
Definition last_named (keys : list value) (name : string) : option value :=
  find (fun key => String.eqb (property_name key) name) (rev keys).

(** The [data] that [multiSet] and [multiAdd] build from their items. *)
Definition data_of {S : Type} (c : Cache S) (items : dict value)
  : dict value :=
  filed (fun call => storage_key c (fst call))
    (fun call => stored_form (serialization c) (snd call)) []
    (forEach items).

(** The batches on which the model follows the code to the end: lodash
    walks [items] by name; no item is filed under the Storage Key
    [length] or [__proto__], so that [data] is walked by name as well and
    holds every item; and with serialization on the values are those
    that [JSON.stringify] renders as the model does. *)
Definition ordinary {S : Type} (c : Cache S) (items : dict value) : Prop :=
  array_like items = None
  /\ (forall item,
        In item items ->
        storage_key c (VStr (fst item)) <> "length"%string
        /\ storage_key c (VStr (fst item)) <> proto)
  /\ (serialization c = true ->
      forall item, In item items -> encodable (snd item) = true).

(** The last item of the list whose Storage Key is [newKey]. *)
Definition last_stored {S : Type} (c : Cache S) (items : dict value)
  (newKey : string) : option (string * value) :=
  find (fun item => String.eqb (storage_key c (VStr (fst item))) newKey)
    (rev items).

(** The calls of the write primitive that [setValues] and [addValues]
    make, in order: when the promise of each call settles, its Storage Key
    and its outcome. *)
Fixpoint timed_writes {S : Type}
  (write : string -> value -> Z -> S -> promise S bool)
  (data : dict value) (duration : Z) (s : S)
  : list (latency * (string * bool)) :=
  match data with
  | [] => []
  | (key, v) :: rest =>
      let p := write key v duration s in
      (settles p, (key, result p))
      :: timed_writes write rest duration (after p)
  end.

(** The Storage Keys of the calls that failed and whose promise settled
    after exactly [hops] turns of the microtask queue. *)
Definition failed_after (hops : nat)
  (calls : list (latency * (string * bool))) : list string :=
  map (fun call => fst (snd call))
    (filter
       (fun call =>
          match fst call with
          | Micro h => Nat.eqb h hops && negb (snd (snd call))
          | Macro => false
          end)
       calls).

(** The microtasks that the calls leave in the queue. *)
Fixpoint jobs_of (calls : list (latency * (string * bool))) : list job :=
  match calls with
  | [] => []
  | (Micro hops, (key, ok)) :: rest => Settle hops key ok :: jobs_of rest
  | (Macro, _) :: rest => jobs_of rest
  end.

(** The I/O completions that the calls are waiting for. *)
Fixpoint ios_of (calls : list (latency * (string * bool)))
  : list (string * bool) :=
  match calls with
  | [] => []
  | (Micro _, _) :: rest => ios_of rest
  | (Macro, o) :: rest => o :: ios_of rest
  end.

(** One turn through a queue of callbacks: the keys pushed by those whose
    promise is settled, and the callbacks that wait on. *)
Fixpoint pushed (q : list job) : list string :=
  match q with
  | [] => []
  | Settle O key false :: rest => key :: pushed rest
  | _ :: rest => pushed rest
  end.

Fixpoint requeued (q : list job) : list job :=
  match q with
  | [] => []
  | Settle (S hops) key ok :: rest => Settle hops key ok :: requeued rest
  | _ :: rest => requeued rest
  end.

Definition settles_only (q : list job) : bool :=
  forallb (fun j => match j with Settle _ _ _ => true | Resume _ => false end)
    q.

(** The contract of the write primitive towards the other keys: a write
    under one key leaves what is read under another key as it is. *)
Definition writes_keep_other_keys (S : Type) `{Backend S} : Prop :=
  forall key key' v duration s,
    key <> key' ->
    result (getValue key' (after (setValue key v duration s)))
    = result (getValue key' s).

(** The store once [setValues] or [addValues] has issued its writes. *)
Fixpoint store_after {S : Type}
  (write : string -> value -> Z -> S -> promise S bool)
  (data : dict value) (duration : Z) (s : S) : S :=
  match data with
  | [] => s
  | (key, v) :: rest =>
      store_after write rest duration (after (write key v duration s))
  end.

(* ================================================================== *)
(** * Part II: theorems                                                *)
(* ================================================================== *)

(** ** Text *)

Lemma text_chars (s : string) : text (chars s) = s.
Proof. apply string_of_list_ascii_of_string. Qed.

Lemma chars_text (l : list ascii) : chars (text l) = l.
Proof. apply list_ascii_of_string_of_list_ascii. Qed.

Lemma length_text (l : list ascii) : String.length (text l) = List.length l.
Proof. induction l as [|c l IH]; simpl; [reflexivity | now rewrite IH]. Qed.

Lemma value_induction (P : value -> Prop) :
  P VNull ->
  (forall b, P (VBool b)) ->
  (forall n, P (VNum n)) ->
  (forall s, P (VStr s)) ->
  (forall vs, Forall P vs -> P (VArr vs)) ->
  (forall ps, Forall (fun p => P (snd p)) ps -> P (VObj ps)) ->
  forall v, P v.
Proof.
  intros Hnull Hbool Hnum Hstr Harr Hobj.
  fix IH 1.
  intros [ | b | n | s | vs | ps ].
  - exact Hnull.
  - apply Hbool.
  - apply Hnum.
  - apply Hstr.
  - apply Harr. induction vs as [|e vs IHvs]; constructor; [apply IH | exact IHvs].
  - apply Hobj. induction ps as [|[k e] ps IHps]; constructor;
      [apply IH | exact IHps].
Qed.

(** ** Numerals *)

Lemma take_digits_print_uint (u : uint) (rest : list ascii) :
  match rest with [] => true | c :: _ => negb (is_digit c) end = true ->
  take_digits (print_uint u ++ rest) = (u, rest).
Proof.
  intros Hrest.
  induction u; simpl; try (rewrite IHu; reflexivity).
  destruct rest as [|c r]; [reflexivity|].
  simpl. unfold is_digit in Hrest.
  destruct (digit_of c); [discriminate | reflexivity].
Qed.

Lemma int_literal_unorm (u : uint) : unorm u = u -> int_literal u = true.
Proof.
  destruct u as [ | u' | | | | | | | | | ]; try reflexivity.
  - discriminate.
  - unfold unorm. rewrite nzhead_D0. intros Hu.
    destruct (nzhead u') eqn:E.
    + injection Hu as <-. reflexivity.
    + exfalso. exact (nzhead_nonzero _ _ E).
    + discriminate.
    + discriminate.
    + discriminate.
    + discriminate.
    + discriminate.
    + discriminate.
    + discriminate.
    + discriminate.
    + discriminate.
Qed.

Lemma int_literal_to_uint (n : N) : int_literal (N.to_uint n) = true.
Proof.
  apply int_literal_unorm.
  rewrite <- DecimalN.Unsigned.to_of.
  now rewrite DecimalN.Unsigned.of_to.
Qed.

Lemma parse_nat_print (n : N) (rest : list ascii) :
  (n <= 9007199254740991)%N ->
  delimited rest = true ->
  parse_nat (print_uint (N.to_uint n) ++ rest) = Some (n, rest).
Proof.
  intros Hsafe Hrest. unfold parse_nat.
  rewrite take_digits_print_uint.
  - rewrite int_literal_to_uint, DecimalN.Unsigned.of_to.
    apply N.leb_le in Hsafe. rewrite Hsafe.
    replace (starts_fraction rest) with false; [reflexivity|].
    destruct rest as [|c r]; [reflexivity|].
    simpl in Hrest. apply andb_prop in Hrest as [_ Hf].
    symmetry. now apply negb_true_iff.
  - destruct rest as [|c r]; [reflexivity|].
    simpl in Hrest. now apply andb_prop in Hrest as [Hd _].
Qed.

Lemma print_uint_head (n : N) :
  exists c tl, print_uint (N.to_uint n) = c :: tl /\ is_digit c = true.
Proof.
  pose proof (int_literal_to_uint n) as H.
  destruct (N.to_uint n); try discriminate; simpl; eauto.
Qed.

(** ** Strings *)

Lemma parse_string_quote_char (c : ascii) (tail : list ascii) :
  parse_string (quote_char c ++ tail) =
  match parse_string tail with
  | Some (body, rest) => Some (c :: body, rest)
  | None => None
  end.
Proof.
  destruct c as [[|] [|] [|] [|] [|] [|] [|] [|]]; reflexivity.
Qed.

Lemma parse_string_quote (l rest : list ascii) :
  parse_string (flat_map quote_char l ++ dquote :: rest) = Some (l, rest).
Proof.
  induction l as [|c l IH]; simpl.
  - reflexivity.
  - rewrite <- app_assoc, parse_string_quote_char, IH. reflexivity.
Qed.

(** ** Dispatch of the parser on the first character *)

Lemma opener_facts (c : ascii) :
  opener c = true ->
  is_ws c = false /\ char_is "]" c = false /\ char_is "}" c = false.
Proof.
  destruct c as [[|] [|] [|] [|] [|] [|] [|] [|]];
    intros H; try discriminate H; repeat split.
Qed.

Lemma skip_ws_opener (c : ascii) (s : list ascii) :
  opener c = true -> skip_ws (c :: s) = c :: s.
Proof.
  intros H. simpl. now destruct (opener_facts c H) as [-> _].
Qed.

Lemma parse_value_number (fuel : nat) (c : ascii) (r : list ascii) :
  is_digit c = true ->
  parse_value (S fuel) (c :: r) =
  match parse_nat (c :: r) with
  | Some (n, rest) => Some (VNum (Z.of_N n), rest)
  | None => None
  end.
Proof.
  destruct c as [[|] [|] [|] [|] [|] [|] [|] [|]];
    intros H; try discriminate H; reflexivity.
Qed.

Lemma print_opener (v : value) :
  exists c tl, print v = c :: tl /\ opener c = true.
Proof.
  destruct v as [ | [|] | [ | p | p ] | s | vs | ps ]; simpl;
    try (do 2 eexists; split; [reflexivity | reflexivity]).
  - destruct (print_uint_head (N.pos p)) as (c & tl & E & Hc).
    simpl in E. rewrite E. exists c, tl. split; [reflexivity|].
    unfold opener. now rewrite Hc.
Qed.

Lemma delimited_separator (c : ascii) (s : list ascii) :
  existsb (Ascii.eqb c) [","; "]"; "}"]%char = true ->
  delimited (c :: s) = true /\ skip_ws (c :: s) = c :: s.
Proof.
  destruct c as [[|] [|] [|] [|] [|] [|] [|] [|]];
    intros H; try discriminate H; split; reflexivity.
Qed.

Lemma parse_elements_step (fuel : nat) (s : list ascii) (acc : list value) :
  parse_elements (S fuel) s acc =
  match parse_value fuel s with
  | Some (v, r) =>
      match skip_ws r with
      | c :: rest =>
          if char_is "," c then parse_elements fuel rest (v :: acc)
          else if char_is "]" c then Some (VArr (List.rev (v :: acc)), rest)
          else None
      | [] => None
      end
  | None => None
  end.
Proof. reflexivity. Qed.

Lemma parse_members_key (fuel : nat) (r : list ascii) (acc : dict value) :
  parse_members (S fuel) (dquote :: r) acc =
  match parse_string r with
  | Some (k, r1) =>
      match skip_ws r1 with
      | c1 :: r2 =>
          if char_is ":" c1 then
            match parse_value fuel r2 with
            | Some (v, r3) =>
                match skip_ws r3 with
                | c3 :: rest =>
                    if char_is "," c3 then
                      parse_members fuel rest (obj_set acc (text k) v)
                    else if char_is "}" c3 then
                      Some (VObj (obj_set acc (text k) v), rest)
                    else None
                | [] => None
                end
            | None => None
            end
          else None
      | [] => None
      end
  | None => None
  end.
Proof. reflexivity. Qed.

Lemma parse_members_step (fuel : nat) (k : string) (tail : list ascii)
  (acc : dict value) :
  parse_members (S fuel) (quote k ++ ":"%char :: tail) acc =
  match parse_value fuel tail with
  | Some (v, r3) =>
      match skip_ws r3 with
      | c3 :: rest =>
          if char_is "," c3 then parse_members fuel rest (obj_set acc k v)
          else if char_is "}" c3 then Some (VObj (obj_set acc k v), rest)
          else None
      | [] => None
      end
  | None => None
  end.
Proof.
  unfold quote. rewrite <- app_comm_cons, <- app_assoc.
  rewrite parse_members_key.
  change ([dquote] ++ ":"%char :: tail) with (dquote :: ":"%char :: tail).
  rewrite parse_string_quote, text_chars.
  reflexivity.
Qed.

Lemma parse_value_array (fuel : nat) (r : list ascii) :
  parse_value (S fuel) ("["%char :: r) =
  match skip_ws r with
  | c' :: rest =>
      if char_is "]" c' then Some (VArr [], rest)
      else parse_elements fuel r []
  | [] => None
  end.
Proof. reflexivity. Qed.

Lemma parse_value_object (fuel : nat) (r : list ascii) :
  parse_value (S fuel) ("{"%char :: r) =
  match skip_ws r with
  | c' :: rest =>
      if char_is "}" c' then Some (VObj [], rest)
      else parse_members fuel r []
  | [] => None
  end.
Proof. reflexivity. Qed.

Lemma parse_value_string (fuel : nat) (r : list ascii) :
  parse_value (S fuel) (dquote :: r) =
  match parse_string r with
  | Some (body, rest) => Some (VStr (text body), rest)
  | None => None
  end.
Proof. reflexivity. Qed.

Lemma parse_value_negative (fuel : nat) (r : list ascii) :
  parse_value (S fuel) ("-"%char :: r) =
  match parse_nat r with
  | Some (n, rest) => Some (VNum (- Z.of_N n), rest)
  | None => None
  end.
Proof. reflexivity. Qed.

Lemma join_cons2 (sep p q : list ascii) (rest : list (list ascii)) :
  join sep (p :: q :: rest) = p ++ sep ++ join sep (q :: rest).
Proof. reflexivity. Qed.

Lemma parse_elements_print (vs : list value) :
  Forall parses vs ->
  vs <> [] ->
  forall fuel acc rest,
    list_sum (map (fun e => S (size e)) vs) <= fuel ->
    parse_elements fuel
      (join [","%char] (map print vs) ++ "]"%char :: rest) acc
    = Some (VArr (List.rev acc ++ vs), rest).
Proof.
  induction 1 as [|v vs Hv Hvs IH]; intros Hne fuel acc rest Hfuel;
    [congruence|].
  destruct fuel as [|fuel]; [simpl in Hfuel; lia|].
  rewrite parse_elements_step.
  destruct vs as [|v2 vs'].
  - simpl in Hfuel. cbn [map join].
    rewrite Hv; [|lia|reflexivity].
    cbn [app skip_ws]. change (is_ws "]") with false. cbv iota.
    change (char_is "," "]") with false.
    change (char_is "]" "]") with true. cbv iota.
    reflexivity.
  - cbn [map]. rewrite join_cons2, <- !app_assoc. cbn [app].
    simpl in Hfuel.
    rewrite Hv; [|lia|reflexivity].
    cbn [app skip_ws]. change (is_ws ",") with false. cbv iota.
    change (char_is "," ",") with true. cbv iota.
    change (print v2 :: map print vs') with (map print (v2 :: vs')).
    rewrite IH; [|discriminate|simpl; lia].
    cbn [List.rev]. now rewrite <- app_assoc.
Qed.

Lemma parse_members_print (ps : dict value) :
  Forall (fun p => parses (snd p)) ps ->
  ps <> [] ->
  forall fuel acc rest,
    list_sum (map (fun p => S (size (snd p))) ps) <= fuel ->
    parse_members fuel
      (join [","%char] (map print_member ps) ++ "}"%char :: rest) acc
    = Some (VObj (assemble acc ps), rest).
Proof.
  induction 1 as [|[k v] ps Hv Hps IH]; intros Hne fuel acc rest Hfuel;
    [congruence|].
  destruct fuel as [|fuel]; [simpl in Hfuel; lia|].
  cbn [snd] in Hv.
  destruct ps as [|p2 ps'].
  - simpl in Hfuel. cbn [map join]. unfold print_member. cbn [fst snd].
    rewrite <- app_assoc. cbn [app].
    rewrite parse_members_step.
    rewrite Hv; [|lia|reflexivity].
    cbn [app skip_ws]. change (is_ws "}") with false. cbv iota.
    change (char_is "," "}") with false.
    change (char_is "}" "}") with true. cbv iota.
    reflexivity.
  - cbn [map]. rewrite join_cons2. unfold print_member at 1. cbn [fst snd].
    rewrite <- !app_assoc. cbn [app].
    simpl in Hfuel.
    rewrite parse_members_step.
    rewrite Hv; [|lia|reflexivity].
    cbn [app skip_ws]. change (is_ws ",") with false. cbv iota.
    change (char_is "," ",") with true. cbv iota.
    change (print_member p2 :: map print_member ps')
      with (map print_member (p2 :: ps')).
    rewrite IH; [|discriminate|simpl; lia].
    reflexivity.
Qed.

(** ** Objects as dictionaries *)

Lemma obj_get_set_same {A : Type} (o : dict A) (k : string) (v : A) :
  obj_get (obj_set o k v) k = Some v.
Proof.
  induction o as [|[k' v'] o IH]; simpl.
  - now rewrite String.eqb_refl.
  - destruct (String.eqb k' k) eqn:E; simpl; rewrite E; [reflexivity | exact IH].
Qed.

Lemma obj_get_set_other {A : Type} (o : dict A) (k k' : string) (v : A) :
  k <> k' -> obj_get (obj_set o k v) k' = obj_get o k'.
Proof.
  intros Hne.
  induction o as [|[k0 v0] o IH]; simpl.
  - destruct (String.eqb k k') eqn:E; [|reflexivity].
    apply String.eqb_eq in E. contradiction.
  - destruct (String.eqb k0 k) eqn:E; simpl.
    + apply String.eqb_eq in E. subst k0.
      destruct (String.eqb k k') eqn:E'; [|reflexivity].
      apply String.eqb_eq in E'. contradiction.
    + now rewrite IH.
Qed.

Lemma obj_get_set {A : Type} (o : dict A) (k k' : string) (v : A) :
  obj_get (obj_set o k v) k' =
  if String.eqb k k' then Some v else obj_get o k'.
Proof.
  destruct (String.eqb k k') eqn:E.
  - apply String.eqb_eq in E. subst k'. apply obj_get_set_same.
  - apply String.eqb_neq in E. now apply obj_get_set_other.
Qed.

Lemma obj_set_fresh {A : Type} (o : dict A) (k : string) (v : A) :
  obj_get o k = None -> obj_set o k v = o ++ [(k, v)].
Proof.
  induction o as [|[k' v'] o IH]; simpl; intros H; [reflexivity|].
  destruct (String.eqb k' k); [discriminate|].
  now rewrite IH.
Qed.

Lemma obj_get_app {A : Type} (o o' : dict A) (k : string) :
  obj_get (o ++ o') k =
  match obj_get o k with
  | Some v => Some v
  | None => obj_get o' k
  end.
Proof.
  induction o as [|[k' v'] o IH]; simpl; [reflexivity|].
  now destruct (String.eqb k' k).
Qed.

Lemma obj_get_in {A : Type} (o : dict A) (k : string) :
  In k (map fst o) <-> obj_get o k <> None.
Proof.
  induction o as [|[k' v'] o IH]; simpl.
  - split; [intros [] | congruence].
  - destruct (String.eqb k' k) eqn:E.
    + apply String.eqb_eq in E. split; [discriminate | now left].
    + apply String.eqb_neq in E. rewrite <- IH.
      split; [intros [?|?]; [contradiction | assumption] | now right].
Qed.

Lemma obj_set_keys {A : Type} (o : dict A) (k : string) (v : A) :
  map fst (obj_set o k v) =
  match obj_get o k with
  | Some _ => map fst o
  | None => map fst o ++ [k]
  end.
Proof.
  induction o as [|[k' v'] o IH]; simpl; [reflexivity|].
  destruct (String.eqb k' k) eqn:E; simpl.
  - reflexivity.
  - rewrite IH. now destruct (obj_get o k).
Qed.

Lemma obj_set_NoDup {A : Type} (o : dict A) (k : string) (v : A) :
  NoDup (map fst o) -> NoDup (map fst (obj_set o k v)).
Proof.
  intros Hnd. rewrite obj_set_keys.
  destruct (obj_get o k) eqn:E; [assumption|].
  apply NoDup_app; [assumption | repeat constructor; intros [] |].
  intros x Hx [<-|[]]. apply obj_get_in in Hx. contradiction.
Qed.

Lemma distinct_NoDup (ks : list string) :
  distinct ks = true <-> NoDup ks.
Proof.
  induction ks as [|k ks IH]; simpl.
  - split; [constructor | reflexivity].
  - rewrite andb_true_iff, negb_true_iff, IH. split.
    + intros [Hk Hks]. constructor; [|assumption].
      intros Hin. apply not_true_iff_false in Hk. apply Hk.
      apply existsb_exists. exists k. split; [assumption|].
      apply String.eqb_refl.
    + intros Hnd. inversion Hnd as [|? ? Hk Hks]; subst. split; [|assumption].
      apply not_true_iff_false. intros Hex.
      apply existsb_exists in Hex as (x & Hx & Hkx).
      apply String.eqb_eq in Hkx. now subst x.
Qed.

Lemma obj_set_twice {A : Type} (o : dict A) (k : string) (v v' : A) :
  obj_set (obj_set o k v) k v' = obj_set o k v'.
Proof.
  induction o as [|[k0 v0] o IH]; simpl.
  - now rewrite String.eqb_refl.
  - destruct (String.eqb k0 k) eqn:E; simpl; rewrite E; [reflexivity|].
    now rewrite IH.
Qed.

(** ** Assignments to a plain object *)

Lemma obj_get_place {A : Type} (o : dict A) (i : N) (k k' : string) (v : A) :
  obj_get o k = None ->
  obj_get (place o i k v) k' =
  if String.eqb k k' then Some v else obj_get o k'.
Proof.
  induction o as [|[k0 v0] o IH]; cbn [place obj_get]; intros Hk;
    [reflexivity|].
  destruct (String.eqb k0 k) eqn:E0; [discriminate|].
  destruct (array_index k0) as [j|]; [destruct (j <? i)%N|];
    cbn [obj_get]; try reflexivity.
  rewrite (IH Hk). destruct (String.eqb k0 k') eqn:E1; [|reflexivity].
  apply String.eqb_eq in E1. subst k'.
  now rewrite String.eqb_sym, E0.
Qed.

Lemma obj_get_create {A : Type} (o : dict A) (k k' : string) (v : A) :
  obj_get o k = None ->
  obj_get (create o k v) k' =
  if String.eqb k k' then Some v else obj_get o k'.
Proof.
  intros Hk. unfold create. destruct (array_index k) as [i|].
  - now apply obj_get_place.
  - rewrite obj_get_app. cbn [obj_get].
    destruct (String.eqb k k') eqn:E.
    + apply String.eqb_eq in E. subst k'. now rewrite Hk.
    + now destruct (obj_get o k').
Qed.

(** What a read finds after [o[k] = v], in an object that has no own
    property [__proto__]. *)
Lemma obj_get_put {A : Type} (o : dict A) (k k' : string) (v : A) :
  obj_get o proto = None ->
  obj_get (put o k v) k' =
  if String.eqb k proto then obj_get o k'
  else if String.eqb k k' then Some v else obj_get o k'.
Proof.
  intros Hproto. unfold put. destruct (obj_get o k) as [w|] eqn:Hk.
  - destruct (String.eqb k proto) eqn:E.
    + apply String.eqb_eq in E. subst k. congruence.
    + apply obj_get_set.
  - destruct (String.eqb k proto); [reflexivity|].
    now apply obj_get_create.
Qed.

Lemma put_no_proto {A : Type} (o : dict A) (k : string) (v : A) :
  obj_get o proto = None -> obj_get (put o k v) proto = None.
Proof.
  intros Hproto. rewrite obj_get_put by exact Hproto.
  now destruct (String.eqb k proto).
Qed.

Lemma place_keys {A : Type} (o : dict A) (i : N) (k : string) (v : A) :
  Permutation (map fst (place o i k v)) (k :: map fst o).
Proof.
  induction o as [|[k0 v0] o IH]; cbn [place map fst]; [reflexivity|].
  destruct (array_index k0) as [j|]; [destruct (j <? i)%N|];
    cbn [map fst]; try reflexivity.
  rewrite IH. apply perm_swap.
Qed.

Lemma put_NoDup {A : Type} (o : dict A) (k : string) (v : A) :
  NoDup (map fst o) -> NoDup (map fst (put o k v)).
Proof.
  intros Hnd. unfold put. destruct (obj_get o k) as [w|] eqn:Hk.
  - now apply obj_set_NoDup.
  - destruct (String.eqb k proto); [exact Hnd|].
    assert (Hfresh : ~ In k (map fst o)).
    { intros Hin. apply obj_get_in in Hin. contradiction. }
    unfold create. destruct (array_index k) as [i|].
    + apply (Permutation_NoDup (Permutation_sym (place_keys o i k v))).
      now constructor.
    + rewrite map_app. cbn [map fst].
      apply NoDup_app; [assumption | repeat constructor; intros [] |].
      intros x Hx [<-|[]]. contradiction.
Qed.

Lemma obj_set_place {A : Type} (o : dict A) (i : N) (k : string) (v v' : A) :
  obj_get o k = None -> obj_set (place o i k v) k v' = place o i k v'.
Proof.
  induction o as [|[k0 v0] o IH]; cbn [place obj_get obj_set]; intros Hk.
  - now rewrite String.eqb_refl.
  - destruct (String.eqb k0 k) eqn:E0; [discriminate|].
    destruct (array_index k0) as [j|]; [destruct (j <? i)%N|];
      cbn [obj_set]; rewrite ?String.eqb_refl, ?E0; try reflexivity.
    now rewrite (IH Hk).
Qed.

Lemma obj_set_last {A : Type} (o : dict A) (k : string) (v v' : A) :
  obj_get o k = None -> obj_set (o ++ [(k, v)]) k v' = o ++ [(k, v')].
Proof.
  induction o as [|[k0 v0] o IH]; cbn [app obj_get obj_set]; intros Hk.
  - now rewrite String.eqb_refl.
  - destruct (String.eqb k0 k); [discriminate|]. now rewrite (IH Hk).
Qed.

(** Two assignments to one name: the second value, at the place of the
    first. *)
Lemma put_twice {A : Type} (o : dict A) (k : string) (v v' : A) :
  put (put o k v) k v' = put o k v'.
Proof.
  unfold put at 2 3. destruct (obj_get o k) as [w|] eqn:Hk.
  - unfold put. rewrite obj_get_set_same. apply obj_set_twice.
  - destruct (String.eqb k proto) eqn:E.
    + unfold put. now rewrite Hk, E.
    + unfold put. rewrite obj_get_create, String.eqb_refl by exact Hk.
      unfold create. destruct (array_index k) as [i|].
      * now apply obj_set_place.
      * now apply obj_set_last.
Qed.

(** A new name that is no array index goes last. *)
Lemma put_fresh {A : Type} (o : dict A) (k : string) (v : A) :
  obj_get o k = None -> k <> proto -> array_index k = None ->
  put o k v = o ++ [(k, v)].
Proof.
  intros Hk Hproto Hindex. unfold put, create. rewrite Hk, Hindex.
  apply String.eqb_neq in Hproto. now rewrite Hproto.
Qed.

Lemma NoDup_map_inj {X Y : Type} (f : X -> Y) (l : list X) (a b : X) :
  NoDup (map f l) -> In a l -> In b l -> f a = f b -> a = b.
Proof.
  induction l as [|x l IH]; cbn [map]; intros Hnd Ha Hb Hf; [contradiction|].
  inversion Hnd as [|? ? Hx Hl]; subst.
  destruct Ha as [<-|Ha], Hb as [<-|Hb]; auto.
  - exfalso. apply Hx. rewrite Hf. now apply in_map.
  - exfalso. apply Hx. rewrite <- Hf. now apply in_map.
Qed.

Lemma find_snoc {A : Type} (P : A -> bool) (l : list A) (x : A) :
  find P (l ++ [x]) =
  match find P l with
  | Some y => Some y
  | None => if P x then Some x else None
  end.
Proof.
  induction l as [|y l IH]; simpl; [reflexivity|].
  now destruct (P y).
Qed.

(** ** Dictionaries built in a loop *)

Section Filing.

Context {X A : Type}.
Variable name : X -> string.
Variable content : X -> A.

Lemma filed_no_proto (xs : list X) (acc : dict A) :
  obj_get acc proto = None ->
  obj_get (filed name content acc xs) proto = None.
Proof.
  revert acc. induction xs as [|x xs IH]; intros acc Hacc; [exact Hacc|].
  unfold filed in *. cbn [fold_left]. apply IH. now apply put_no_proto.
Qed.

Lemma filed_get (xs : list X) (acc : dict A) (k : string) :
  obj_get acc proto = None ->
  k <> proto ->
  obj_get (filed name content acc xs) k =
  match find (fun x => String.eqb (name x) k) (rev xs) with
  | Some x => Some (content x)
  | None => obj_get acc k
  end.
Proof.
  intros Hacc Hk. revert acc Hacc.
  induction xs as [|x xs IH]; intros acc Hacc; [reflexivity|].
  unfold filed in *. cbn [fold_left rev].
  rewrite IH by now apply put_no_proto.
  rewrite find_snoc, obj_get_put by exact Hacc.
  destruct (find _ (rev xs)); [reflexivity|].
  destruct (String.eqb (name x) proto) eqn:E;
    [|now destruct (String.eqb (name x) k)].
  apply String.eqb_eq in E. rewrite E.
  apply not_eq_sym, String.eqb_neq in Hk. now rewrite Hk.
Qed.

Lemma filed_NoDup (xs : list X) (acc : dict A) :
  NoDup (map fst acc) -> NoDup (map fst (filed name content acc xs)).
Proof.
  revert acc. induction xs as [|x xs IH]; intros acc Hnd; [exact Hnd|].
  unfold filed in *. cbn [fold_left]. apply IH. now apply put_NoDup.
Qed.

(** The names of the dictionary are the names filed, [__proto__]
    apart. *)
Lemma filed_keys (xs : list X) (k : string) :
  In k (map fst (filed name content [] xs))
  <-> k <> proto /\ exists x, In x xs /\ name x = k.
Proof.
  rewrite obj_get_in. destruct (String.eqb k proto) eqn:Hk.
  - apply String.eqb_eq in Hk. subst k.
    rewrite filed_no_proto by reflexivity. split; [congruence|].
    now intros [Hne _].
  - apply String.eqb_neq in Hk. rewrite filed_get by auto. cbn [obj_get].
    destruct (find _ (rev xs)) as [x|] eqn:E.
    + apply find_some in E as [Hin Hname]. apply String.eqb_eq in Hname.
      split; [|discriminate]. intros _. split; [assumption|].
      exists x. split; [|assumption]. now apply in_rev.
    + split; [congruence|]. intros (_ & x & Hin & Hname).
      apply in_rev in Hin. pose proof (find_none _ _ E x Hin) as Hx.
      cbv beta in Hx. rewrite Hname, String.eqb_refl in Hx. discriminate.
Qed.

Lemma filed_in (xs : list X) (k : string) (v : A) :
  obj_get (filed name content [] xs) k = Some v ->
  exists x, In x xs /\ name x = k /\ content x = v.
Proof.
  destruct (String.eqb k proto) eqn:Hk.
  - apply String.eqb_eq in Hk. subst k.
    rewrite filed_no_proto by reflexivity. discriminate.
  - apply String.eqb_neq in Hk. rewrite filed_get by auto. cbn [obj_get].
    destruct (find _ (rev xs)) as [x|] eqn:E; [|discriminate].
    apply find_some in E as [Hin Hname]. apply String.eqb_eq in Hname.
    intros [= <-]. exists x. split; [now apply in_rev | auto].
Qed.

(** With pairwise distinct names, every name other than [__proto__]
    holds the content filed under it. *)
Lemma filed_get_in (xs : list X) (x : X) :
  NoDup (map name xs) -> In x xs -> name x <> proto ->
  obj_get (filed name content [] xs) (name x) = Some (content x).
Proof.
  intros Hnd Hin Hproto. rewrite filed_get by auto. cbn [obj_get].
  destruct (find _ (rev xs)) as [y|] eqn:E.
  - apply find_some in E as [Hy Hname]. apply String.eqb_eq in Hname.
    apply in_rev in Hy.
    now rewrite (NoDup_map_inj name xs y x Hnd Hy Hin Hname).
  - apply in_rev in Hin. pose proof (find_none _ _ E x Hin) as Hx.
    cbv beta in Hx. rewrite String.eqb_refl in Hx. discriminate.
Qed.

(** When the names are pairwise distinct, none of them [__proto__] or an
    array index, the dictionary lists the entries in the order of the
    loop. *)
Lemma filed_distinct (xs : list X) :
  NoDup (map name xs) ->
  (forall x, In x xs -> name x <> proto /\ array_index (name x) = None) ->
  filed name content [] xs = map (fun x => (name x, content x)) xs.
Proof.
  intros Hnd Hnames.
  assert (Hgen : forall acc,
             (forall x, In x xs -> obj_get acc (name x) = None) ->
             filed name content acc xs
             = acc ++ map (fun x => (name x, content x)) xs).
  { induction xs as [|x xs IH]; intros acc Hacc.
    - cbn. now rewrite app_nil_r.
    - unfold filed in *. cbn [fold_left map].
      inversion Hnd as [|? ? Hx Hxs]; subst.
      destruct (Hnames x (or_introl eq_refl)) as [Hproto Hindex].
      rewrite put_fresh by (auto; apply Hacc; now left).
      rewrite IH; [now rewrite <- app_assoc | assumption | |].
      + intros y Hy. apply Hnames. now right.
      + intros y Hy. rewrite obj_get_app, Hacc by now right.
        cbn [obj_get]. destruct (String.eqb (name x) (name y)) eqn:E;
          [|reflexivity].
        apply String.eqb_eq in E. exfalso. apply Hx. rewrite E.
        now apply in_map. }
  now apply (Hgen []).
Qed.

End Filing.

Lemma assemble_fresh (ps acc : dict value) :
  NoDup (map fst ps) ->
  (forall k, In k (map fst ps) -> obj_get acc k = None) ->
  assemble acc ps = acc ++ ps.
Proof.
  revert acc.
  induction ps as [|[k v] ps IH]; intros acc Hnd Hacc; simpl.
  - now rewrite app_nil_r.
  - inversion Hnd as [|? ? Hk Hks]; subst.
    unfold assemble in *. simpl.
    rewrite obj_set_fresh by (apply Hacc; now left).
    rewrite IH; [now rewrite <- app_assoc | assumption |].
    intros k' Hk'. rewrite obj_get_app, Hacc by now right.
    simpl. destruct (String.eqb k k') eqn:E; [|reflexivity].
    apply String.eqb_eq in E. now subst k'.
Qed.

(** ** JSON.parse after JSON.stringify *)

Lemma array_dispatch (fuel : nat) (r : list ascii) :
  (exists c tl, r = c :: tl /\ opener c = true) ->
  parse_value (S fuel) ("["%char :: r) = parse_elements fuel r [].
Proof.
  intros (c & tl & -> & Hc).
  rewrite parse_value_array, skip_ws_opener by exact Hc.
  now destruct (opener_facts c Hc) as (_ & -> & _).
Qed.

Lemma object_dispatch (fuel : nat) (r : list ascii) :
  (exists c tl, r = c :: tl /\ opener c = true) ->
  parse_value (S fuel) ("{"%char :: r) = parse_members fuel r [].
Proof.
  intros (c & tl & -> & Hc).
  rewrite parse_value_object, skip_ws_opener by exact Hc.
  now destruct (opener_facts c Hc) as (_ & _ & ->).
Qed.

Lemma join_opener (p : list ascii) (parts : list (list ascii))
  (tail : list ascii) :
  (exists c tl, p = c :: tl /\ opener c = true) ->
  exists c tl,
    join [","%char] (p :: parts) ++ tail = c :: tl /\ opener c = true.
Proof.
  intros (c & tl & -> & Hc).
  destruct parts as [|q parts]; simpl; eauto.
Qed.

Theorem print_parses (v : value) : encodable v = true -> parses v.
Proof.
  induction v as [ | b | n | s | vs IH | ps IH ] using value_induction;
    intros Henc fuel rest Hfuel Hrest;
    (destruct fuel as [|fuel]; [simpl in Hfuel; lia|]).
  - reflexivity.
  - destruct b; reflexivity.
  - assert (Hsafe : (Z.to_N (Z.abs n) <= 9007199254740991)%N).
    { cbn [encodable] in Henc. unfold safe_integer in Henc.
      apply Z.leb_le in Henc. lia. }
    destruct n as [ | p | p ].
    + change (print (VNum 0) ++ rest) with ("0"%char :: rest).
      rewrite parse_value_number by reflexivity.
      change ("0"%char :: rest) with (print_uint (N.to_uint 0) ++ rest).
      now rewrite parse_nat_print.
    + change (print (VNum (Z.pos p))) with (print_uint (N.to_uint (N.pos p))).
      destruct (print_uint_head (N.pos p)) as (c & tl & E & Hc).
      rewrite E. cbn [app]. rewrite parse_value_number by exact Hc.
      change (c :: tl ++ rest) with ((c :: tl) ++ rest).
      rewrite <- E. now rewrite parse_nat_print.
    + change (print (VNum (Z.neg p)))
        with ("-"%char :: print_uint (N.to_uint (N.pos p))).
      cbn [app]. rewrite parse_value_negative.
      now rewrite parse_nat_print.
  - cbn [print]. unfold quote. rewrite <- app_comm_cons, <- app_assoc.
    rewrite parse_value_string.
    change ([dquote] ++ rest) with (dquote :: rest).
    now rewrite parse_string_quote, text_chars.
  - assert (Hvs : Forall parses vs).
    { cbn [encodable] in Henc. rewrite forallb_forall in Henc.
      rewrite Forall_forall in IH |- *. intros e He. apply IH; auto. }
    destruct vs as [|e vs]; [reflexivity|].
    cbn [print]. rewrite <- app_comm_cons, <- app_assoc. cbn [app].
    rewrite array_dispatch.
    + rewrite parse_elements_print;
        [reflexivity | assumption | discriminate | cbn [size] in Hfuel; lia].
    + cbn [map]. apply join_opener, print_opener.
  - cbn [encodable] in Henc. apply andb_prop in Henc as [Hkeys Henc].
    assert (Hps : Forall (fun p => parses (snd p)) ps).
    { rewrite forallb_forall in Henc.
      rewrite Forall_forall in IH |- *. intros e He. apply IH; auto. }
    destruct ps as [|e ps]; [reflexivity|].
    cbn [print].
    change (fun p : string * value => quote (fst p) ++ ":"%char :: print (snd p))
      with print_member.
    rewrite <- app_comm_cons, <- app_assoc. cbn [app].
    rewrite object_dispatch.
    + rewrite parse_members_print;
        [| assumption | discriminate | cbn [size] in Hfuel; lia].
      rewrite assemble_fresh; [reflexivity | now apply distinct_NoDup |].
      reflexivity.
    + cbn [map]. apply join_opener. unfold print_member, quote.
      cbn [app]. do 2 eexists. split; reflexivity.
Qed.

Lemma join_length_bound {A : Type} (f : A -> list ascii) (w : A -> nat)
  (xs : list A) :
  Forall (fun x => w x <= List.length (f x)) xs ->
  list_sum (map (fun x => S (w x)) xs)
  <= List.length (join [","%char] (map f xs)) + 1.
Proof.
  induction 1 as [|x xs Hx Hxs IH]; [simpl; lia|].
  destruct xs as [|y ys].
  - simpl. lia.
  - cbn [map]. rewrite join_cons2, !length_app.
    cbn [map] in IH.
    set (J := join [","%char] (f y :: map f ys)) in *.
    simpl in *. lia.
Qed.

Lemma size_le_print (v : value) : size v <= List.length (print v).
Proof.
  induction v as [ | b | n | s | vs IH | ps IH ] using value_induction.
  - simpl. lia.
  - destruct b; simpl; lia.
  - destruct n as [ | p | p ]; [simpl; lia | | simpl; lia].
    destruct (print_uint_head (N.pos p)) as (c & tl & E & _).
    change (print (VNum (Z.pos p))) with (print_uint (N.to_uint (N.pos p))).
    rewrite E. simpl. lia.
  - simpl. lia.
  - cbn [size print]. cbn [List.length]. rewrite length_app.
    pose proof (join_length_bound print size vs IH). simpl List.length. lia.
  - cbn [size print]. cbn [List.length]. rewrite length_app.
    assert (H : Forall
                  (fun p => size (snd p) <= List.length (print_member p)) ps).
    { eapply Forall_impl; [|exact IH]. intros [k e] He. unfold print_member.
      rewrite length_app. simpl in *. lia. }
    pose proof (join_length_bound print_member (fun p => size (snd p)) ps H).
    change (fun p : string * value => quote (fst p) ++ ":"%char :: print (snd p))
      with print_member.
    simpl List.length. lia.
Qed.

(** Decoding the text of an encodable value gives the value back. *)
Theorem JSON_parse_stringify (v : value) :
  encodable v = true -> JSON_parse (JSON_stringify v) = Some v.
Proof.
  intros Henc. unfold JSON_parse, JSON_stringify.
  rewrite chars_text, length_text.
  rewrite <- (app_nil_r (print v)) at 2.
  rewrite (print_parses v Henc); [reflexivity | | reflexivity].
  pose proof (size_le_print v). lia.
Qed.

(** The text [false] decodes to the absence sentinel. *)
Lemma JSON_parse_false : JSON_parse "false" = Some absent.
Proof. reflexivity. Qed.

(** ** The digest *)

Lemma length_bytes_le (n : nat) (x : Z) : List.length (bytes_le n x) = n.
Proof. revert x. induction n as [|n IH]; intros x; simpl; [|rewrite IH]; reflexivity. Qed.

(** The padded message is a whole number of 64-byte blocks. *)
Lemma length_md5_pad (msg : list Z) :
  exists blocks, List.length (md5_pad msg) = 64 * blocks.
Proof.
  unfold md5_pad. rewrite length_app. cbn [List.length].
  rewrite length_app, repeat_length, length_bytes_le.
  set (len := Z.of_nat (List.length msg)).
  pose proof (Z.mod_pos_bound (55 - len) 64 eq_refl) as Hr.
  pose proof (Z.div_mod (55 - len) 64) as Hq.
  exists (Z.to_nat (1 - (55 - len) / 64)). subst len. lia.
Qed.

Lemma length_md5_digest (msg : list Z) : List.length (md5_digest msg) = 16.
Proof. unfold md5_digest. now rewrite !length_app, !length_bytes_le. Qed.

Lemma length_hex_bytes (bs : list Z) :
  List.length (flat_map hex_byte bs) = 2 * List.length bs.
Proof. induction bs as [|b bs IH]; simpl; [reflexivity | rewrite IH; lia]. Qed.

Lemma hex_digit_is_hex (n : N) : is_hex (hex_digit n) = true.
Proof.
  unfold is_hex, hex_digit. apply existsb_exists.
  exists (nth (N.to_nat n) hex_chars "0"%char).
  split; [|apply Ascii.eqb_refl].
  destruct (Nat.lt_ge_cases (N.to_nat n) (List.length hex_chars)) as [Hlt|Hge].
  - now apply nth_In.
  - rewrite nth_overflow by exact Hge. now left.
Qed.

Lemma hex_bytes_are_hex (bs : list Z) :
  forallb is_hex (flat_map hex_byte bs) = true.
Proof.
  induction bs as [|b bs IH]; [reflexivity|].
  cbn [flat_map hex_byte app forallb].
  now rewrite !hex_digit_is_hex, IH.
Qed.

(** The digest is 32 hexadecimal digits, that is 128 bits. *)
Lemma mb5_format (data : string) :
  String.length (mb5 data) = 32 /\ forallb is_hex (chars (mb5 data)) = true.
Proof.
  unfold mb5. rewrite length_text, chars_text, length_hex_bytes.
  rewrite length_md5_digest. split; [reflexivity | apply hex_bytes_are_hex].
Qed.

Example mb5_empty : mb5 "" = "d41d8cd98f00b204e9800998ecf8427e"%string.
Proof. vm_compute. reflexivity. Qed.

Example mb5_abc : mb5 "abc" = "900150983cd24fb0d6963f7d28e17f72"%string.
Proof. vm_compute. reflexivity. Qed.

Example mb5_two_blocks :
  mb5 "12345678901234567890123456789012345678901234567890123456789012345678901234567890"
  = "57edf4a22be3c955ac49da2e2107b67a"%string.
Proof. vm_compute. reflexivity. Qed.

(** ** buildKey *)

Section BuildKey.

Context {S : Type} `{Backend S}.

Lemma buildKey_unfold (key : value) (c : Cache S) :
  buildKey key c = (Fulfilled (storage_key c key), c).
Proof. reflexivity. Qed.

(** C4.  For a string Cache Key of at most 32 characters, [buildKey]
    returns [keyPrefix] followed by the key itself, unchanged and
    unhashed. *)
Theorem buildKey_short_string (c : Cache S) (s : string) :
  String.length s <= 32 ->
  buildKey (VStr s) c = (Fulfilled (keyPrefix c ++ s)%string, c).
Proof.
  intros Hlen. rewrite buildKey_unfold. unfold storage_key, normalize.
  apply Nat.leb_le in Hlen. now rewrite Hlen.
Qed.

(** C5.  [buildKey] is deterministic: a second call on the same key
    returns the same Storage Key as the first.  For a string of more than
    32 characters and for every key of the model that is not a string,
    the Storage Key is [keyPrefix] followed by the MD5 digest of the
    canonical text of the key, 32 hexadecimal digits; so keys with the
    same canonical text get the same Storage Key.  The digest is that of
    RFC 1321: for the two strings of its test suite that are longer than
    32 characters, and for the keys [42], [["user",42]] and [{"a":1}],
    [buildKey] returns the digests that the RFC and [md5sum] give for
    their canonical texts. *)
Theorem buildKey_deterministic_digest (c : Cache S) (key : value) :
  (forall k1 c1 k2 c2,
      buildKey key c = (k1, c1) -> buildKey key c1 = (k2, c2) -> k1 = k2)
  /\ (hashed key = true ->
      encodable key = true ->
      exists digest,
        buildKey key c = (Fulfilled (keyPrefix c ++ digest)%string, c)
        /\ digest = mb5 (canonical key)
        /\ String.length digest = 32
        /\ forallb is_hex (chars digest) = true)
  /\ (forall key',
        hashed key = true -> hashed key' = true ->
        encodable key = true -> encodable key' = true ->
        canonical key = canonical key' ->
        buildKey key c = buildKey key' c)
  /\ buildKey
       (VStr "ABCDEFGHIJKLMNOPQRSTUVWXYZabcdefghijklmnopqrstuvwxyz0123456789")
       c
     = (Fulfilled (keyPrefix c ++ "d174ab98d277d9f5a5611c2c9f419d9f")%string,
        c)
  /\ buildKey
       (VStr "12345678901234567890123456789012345678901234567890123456789012345678901234567890")
       c
     = (Fulfilled (keyPrefix c ++ "57edf4a22be3c955ac49da2e2107b67a")%string,
        c)
  /\ buildKey (VNum 42) c
     = (Fulfilled (keyPrefix c ++ "a1d0c6e83f027327d8461063f4ac58a6")%string,
        c)
  /\ buildKey (VArr [VStr "user"; VNum 42]) c
     = (Fulfilled (keyPrefix c ++ "92fc6c8af4eda829161f28227762d39e")%string,
        c)
  /\ buildKey (VObj [("a"%string, VNum 1)]) c
     = (Fulfilled (keyPrefix c ++ "bb6cb5c68df4652941caf652a366f2d8")%string,
        c).
Proof.
  assert (Hnorm : forall k, hashed k = true -> normalize k = mb5 (canonical k)).
  { intros [ | b | n | s | vs | ps ] Hk; try reflexivity.
    unfold normalize, canonical. simpl in Hk.
    apply negb_true_iff in Hk. now rewrite Hk. }
  assert (Hvector : forall k digest,
             normalize k = digest ->
             buildKey k c = (Fulfilled (keyPrefix c ++ digest)%string, c)).
  { intros k digest <-. apply buildKey_unfold. }
  split; [|split; [|split]].
  - intros k1 c1 k2 c2 H1 H2. rewrite buildKey_unfold in H1.
    injection H1 as <- <-. rewrite buildKey_unfold in H2.
    now injection H2 as <- _.
  - intros Hk _. exists (mb5 (canonical key)).
    rewrite buildKey_unfold. unfold storage_key. rewrite (Hnorm key Hk).
    destruct (mb5_format (canonical key)) as [Hlen Hhex]. auto.
  - intros key' Hk Hk' _ _ Hcanon. rewrite !buildKey_unfold.
    unfold storage_key.
    now rewrite (Hnorm key Hk), (Hnorm key' Hk'), Hcanon.
  - repeat split; apply Hvector; vm_compute; reflexivity.
Qed.

End BuildKey.

(** ** get, exists and set *)

Section SingleKey.

Context {S : Type} `{Backend S}.

Lemma get_with_unfold (parse : string -> option value) (key : value)
  (c : Cache S) :
  get_with parse key c =
  let p := getValue (storage_key c key) (store c) in
  let c' := with_store c (after p) in
  if is_false (result p) || negb (serialization c) then
    (Fulfilled (result p), c')
  else
    match parse (text (ToString (result p))) with
    | Some d => (Fulfilled d, c')
    | None => (Rejected, c')
    end.
Proof.
  cbv beta iota zeta
    delta [get_with bind buildKey read await ret decode storage_key].
  cbn [with_store serialization].
  destruct (is_false _ || negb _); reflexivity.
Qed.

Lemma exists_unfold (key : value) (c : Cache S) :
  exists_ key c =
  let p := getValue (storage_key c key) (store c) in
  (Fulfilled (negb (is_false (result p))), with_store c (after p)).
Proof. reflexivity. Qed.

Lemma set_unfold (key v : value) (duration : Z) (c : Cache S) :
  set key v duration c =
  let stored := if serialization c then VStr (JSON_stringify v) else v in
  let p := setValue (storage_key c key) stored duration (store c) in
  (Fulfilled (result p), with_store c (after p)).
Proof. reflexivity. Qed.

(** [get] applies the rule [as_get] to what [getValue] returned. *)
Lemma get_as_get (key : value) (c : Cache S) :
  fst (get key c) =
  match as_get (serialization c)
          (result (getValue (storage_key c key) (store c))) with
  | Some d => Fulfilled d
  | None => Rejected
  end.
Proof.
  unfold get. rewrite get_with_unfold. unfold as_get. cbv zeta.
  destruct (is_false _ || negb _); [reflexivity|].
  now destruct (JSON_parse _).
Qed.

(** C6.  When [getValue] returns the absence sentinel, [get] returns the
    sentinel itself and decodes nothing, with serialization on or off:
    the result does not depend on the decoder. *)
Theorem get_absent_undecoded (parse : string -> option value)
  (key : value) (c : Cache S) :
  result (getValue (storage_key c key) (store c)) = absent ->
  get_with parse key c =
  (Fulfilled absent,
   with_store c (after (getValue (storage_key c key) (store c)))).
Proof.
  intros Habsent. rewrite get_with_unfold. cbv zeta.
  now rewrite Habsent.
Qed.

(** What [get] returns after a successful [set], for a backend that
    keeps what was written. *)
Lemma get_after_set (key v : value) (duration : Z) (c c1 : Cache S) :
  keeps_writes S ->
  (serialization c = true -> encodable v = true) ->
  set key v duration c = (Fulfilled true, c1) ->
  fst (get key c1) = Fulfilled v.
Proof.
  intros Hkeeps Henc Hset. rewrite set_unfold in Hset. cbv zeta in Hset.
  injection Hset as Hok <-.
  unfold get. rewrite get_with_unfold. cbv zeta.
  change (storage_key (with_store c ?s) key) with (storage_key c key).
  cbn [store serialization with_store].
  rewrite (Hkeeps _ _ _ _ Hok).
  destruct (serialization c) eqn:Hser.
  - cbn [is_false ToString negb orb]. rewrite text_chars.
    now rewrite JSON_parse_stringify by auto.
  - now rewrite orb_true_r.
Qed.

(** C8.  Round trip through a backend that keeps what was written.  With
    serialization on, [set(k, v)] for an encodable [v] followed by
    [get(k)] returns [v]; with serialization off, [set(k, s)] for a string
    [s] followed by [get(k)] returns the string [s] itself. *)
Theorem set_get_roundtrip (key : value) (duration : Z) (c c1 : Cache S) :
  keeps_writes S ->
  (serialization c = true ->
   forall v,
     encodable v = true ->
     set key v duration c = (Fulfilled true, c1) ->
     fst (get key c1) = Fulfilled v)
  /\ (serialization c = false ->
      forall s,
        set key (VStr s) duration c = (Fulfilled true, c1) ->
        fst (get key c1) = Fulfilled (VStr s)).
Proof.
  intros Hkeeps. split.
  - intros Hser v Henc Hset. eapply get_after_set; eauto.
  - intros Hser s Hset. eapply get_after_set; eauto; congruence.
Qed.

(** C7, amended.  [get] on a missing key returns the absence sentinel, and
    after a successful [set(k, v)] the result of [get(k)] is [v] and
    differs from the sentinel for every encodable value [v] other than
    [false], in particular for [0] and for the empty string. *)
Theorem stored_value_not_absent (key v : value) (duration : Z)
  (c c1 : Cache S) :
  keeps_writes S ->
  (result (getValue (storage_key c key) (store c)) = absent ->
   fst (get key c) = Fulfilled absent)
  /\ (v <> VBool false ->
      (serialization c = true -> encodable v = true) ->
      set key v duration c = (Fulfilled true, c1) ->
      fst (get key c1) = Fulfilled v /\ fst (get key c1) <> Fulfilled absent).
Proof.
  intros Hkeeps. split.
  - intros Habsent. unfold get. rewrite get_with_unfold. cbv zeta.
    now rewrite Habsent.
  - intros Hv Henc Hset.
    rewrite (get_after_set key v duration c c1 Hkeeps Henc Hset).
    split; [reflexivity|]. unfold absent. congruence.
Qed.

(** C10.  With serialization on, when the Storage Key of [k] holds the
    text [false], [exists(k)] is true while [get(k)] is the absence
    sentinel: [exists] compares what [getValue] returned with the
    sentinel, [get] decodes it. *)
Theorem exists_get_disagree (key : value) (c : Cache S) :
  serialization c = true ->
  result (getValue (storage_key c key) (store c)) = VStr "false" ->
  fst (exists_ key c) = Fulfilled true
  /\ fst (get key c) = Fulfilled absent.
Proof.
  intros Hser Hraw. split.
  - rewrite exists_unfold. cbv zeta. now rewrite Hraw.
  - rewrite get_as_get, Hraw, Hser. reflexivity.
Qed.

End SingleKey.

(** ** The configuration fields are never written *)

Section Frame.

Context {S : Type} `{Backend S}.

Lemma preserves_ret {A : Type} (a : A) : preserves_config (@ret S A a).
Proof. intros c. split; reflexivity. Qed.

Lemma preserves_read {A : Type} (field : Cache S -> A) :
  preserves_config (read field).
Proof. intros c. split; reflexivity. Qed.

Lemma preserves_await {A : Type} (p : S -> promise S A) :
  preserves_config (await p).
Proof. intros c. split; reflexivity. Qed.

Lemma preserves_decode (parse : string -> option value) (v : value) :
  preserves_config (@decode S parse v).
Proof. intros c. unfold decode. destruct (parse _); split; reflexivity. Qed.

Lemma preserves_reject {A : Type} : preserves_config (@reject S A).
Proof. intros c. split; reflexivity. Qed.

Lemma preserves_bind {A B : Type} (m : M S A) (f : A -> M S B) :
  preserves_config m ->
  (forall a, preserves_config (f a)) ->
  preserves_config (bind m f).
Proof.
  intros Hm Hf c. unfold bind. specialize (Hm c).
  destruct (m c) as [[a|] c']; cbn [snd] in *; [|exact Hm].
  destruct (Hf a c') as [Hp Hs]. destruct Hm as [Hp' Hs'].
  split; congruence.
Qed.

Lemma preserves_if {A : Type} (b : bool) (m m' : M S A) :
  preserves_config m -> preserves_config m' ->
  preserves_config (if b then m else m').
Proof. now destruct b. Qed.

Create HintDb frame.

#[local] Hint Resolve preserves_ret preserves_read preserves_await
  preserves_decode preserves_reject preserves_if : frame.

Ltac frame :=
  repeat first
    [ apply preserves_bind; [|intro]
    | progress auto with frame ].

Lemma preserves_buildKey (key : value) : preserves_config (S := S) (buildKey key).
Proof. unfold buildKey. frame. Qed.

#[local] Hint Resolve preserves_buildKey : frame.

Lemma preserves_get_with (parse : string -> option value) (key : value) :
  preserves_config (get_with parse key).
Proof. unfold get_with. frame. Qed.

Lemma preserves_exists (key : value) : preserves_config (exists_ key).
Proof. unfold exists_. frame. Qed.

Lemma preserves_getValues_from (keys : list string) (results : dict value) :
  preserves_config (getValues_from results keys).
Proof.
  revert results. induction keys as [|key keys IH]; intros results;
    cbn [getValues_from]; frame.
Qed.

Lemma preserves_keyMap_from (keys : list value) (keyMap : dict string) :
  preserves_config (S := S) (keyMap_from keyMap keys).
Proof.
  revert keyMap. induction keys as [|key keys IH]; intros keyMap;
    cbn [keyMap_from]; frame.
Qed.

Lemma preserves_results_from (parse : string -> option value)
  (values : dict value) (keyMap : dict string) (results : dict value) :
  preserves_config (S := S) (results_from parse values results keyMap).
Proof.
  revert results. induction keyMap as [|[key newKey] keyMap IH];
    intros results; cbn [results_from]; [frame|].
  destruct (obj_member values newKey); frame.
Qed.

Lemma preserves_multiGet_with (batch : list string -> M S (dict value))
  (keys : list value) :
  (forall ks, preserves_config (batch ks)) ->
  preserves_config (multiGet_with batch keys).
Proof.
  intros Hbatch. unfold multiGet_with.
  apply preserves_bind; [apply preserves_keyMap_from | intros keyMap].
  apply preserves_bind; [apply Hbatch | intros values].
  apply preserves_results_from.
Qed.

Lemma preserves_encode (v : value) : preserves_config (S := S) (encode v).
Proof. unfold encode. frame. Qed.

#[local] Hint Resolve preserves_encode : frame.

Lemma preserves_data_from (calls : list (value * value))
  (data : dict value) :
  preserves_config (S := S) (data_from data calls).
Proof.
  revert data. induction calls as [|[key v] calls IH]; intros data;
    cbn [data_from]; frame.
Qed.

Lemma preserves_awaited (batch : dict value -> Z -> S -> S * loop)
  (data : dict value) (duration : Z) :
  preserves_config (awaited batch data duration).
Proof.
  intros c. unfold awaited. destruct (batch data duration (store c)) as [s w].
  destruct (caller_saw _); split; reflexivity.
Qed.

(** C9.  Every public operation leaves [keyPrefix] and [serialization]
    unchanged: their values after the call are their values before it. *)
Theorem config_unchanged (m : call) (c : Cache S) :
  keyPrefix (after_call m c) = keyPrefix c
  /\ serialization (after_call m c) = serialization c.
Proof.
  destruct m; cbn [after_call].
  - apply preserves_buildKey.
  - apply preserves_get_with.
  - apply preserves_multiGet_with. intros ks. apply preserves_getValues_from.
  - apply preserves_exists.
  - unfold set. frame.
  - unfold multiSet.
    apply preserves_bind; [apply preserves_data_from | intros data].
    apply preserves_awaited.
  - unfold add. frame.
  - unfold multiAdd.
    apply preserves_bind; [apply preserves_data_from | intros data].
    apply preserves_awaited.
  - unfold delete. frame.
  - unfold flush. frame.
Qed.

End Frame.

(** ** getValues *)

Lemma obj_get_some_in {A : Type} (o : dict A) (k : string) (v : A) :
  obj_get o k = Some v -> In (k, v) o.
Proof.
  induction o as [|[k' v'] o IH]; simpl; [discriminate|].
  destruct (String.eqb k' k) eqn:E.
  - apply String.eqb_eq in E. intros [= <-]. subst. now left.
  - intros Hget. right. now apply IH.
Qed.

Lemma in_obj_get {A : Type} (o : dict A) (k : string) (v : A) :
  NoDup (map fst o) -> In (k, v) o -> obj_get o k = Some v.
Proof.
  induction o as [|[k' v'] o IH]; simpl; intros Hnd Hin; [contradiction|].
  inversion Hnd as [|? ? Hk Hks]; subst.
  destruct Hin as [[= -> ->] | Hin].
  - now rewrite String.eqb_refl.
  - destruct (String.eqb k' k) eqn:E; [|now apply IH].
    apply String.eqb_eq in E. subst k'. exfalso. apply Hk.
    apply in_map_iff. now exists (k, v).
Qed.

Section BatchRead.

Context {S : Type} `{Backend S}.

Lemma reads_keys (keys : list string) (s : S) :
  map fst (fst (reads keys s)) = keys.
Proof.
  revert s. induction keys as [|key keys IH]; intros s; [reflexivity|].
  cbn [reads]. specialize (IH (after (getValue key s))).
  destruct (reads keys _) as [more s']. cbn [fst map] in *. now rewrite IH.
Qed.

Lemma getValues_from_reads (keys : list string) (results : dict value)
  (c : Cache S) :
  (forall v,
      In (proto, v) (fst (reads keys (store c))) -> object_or_null v = false) ->
  getValues_from results keys c =
  (Fulfilled (filed fst snd results (fst (reads keys (store c)))),
   with_store c (snd (reads keys (store c)))).
Proof.
  revert results c. induction keys as [|key keys IH]; intros results c Hprim.
  - destruct c; reflexivity.
  - cbn [getValues_from reads] in *.
    unfold bind, await at 1.
    destruct (reads keys (after (getValue key (store c)))) as [more s'] eqn:E.
    cbn [fst snd] in Hprim.
    assert (Hkeep : replaces_prototype results key
                      (result (getValue key (store c))) = false).
    { unfold replaces_prototype. destruct (String.eqb key proto) eqn:Hk;
        [|reflexivity].
      apply String.eqb_eq in Hk. subst key.
      rewrite (Hprim _ (or_introl eq_refl)). apply andb_false_r. }
    rewrite Hkeep, IH; cbn [store with_store]; rewrite E; [reflexivity|].
    intros v Hv. apply Hprim. now right.
Qed.

Lemma reads_without_proto (keys : list string) (s : S) (v : value) :
  ~ In proto keys -> ~ In (proto, v) (fst (reads keys s)).
Proof.
  intros Hnot Hin. apply Hnot. rewrite <- (reads_keys keys s).
  apply in_map_iff. now exists (proto, v).
Qed.

Lemma reads_read_only (keys : list string) (s : S) :
  (forall k s0, after (getValue k s0) = s0) ->
  fst (reads keys s) = map (fun k => (k, result (getValue k s))) keys.
Proof.
  intros Hro. induction keys as [|key keys IH]; [reflexivity|].
  cbn [reads]. rewrite Hro.
  destruct (reads keys s) as [more s']. cbn [fst map] in *. now rewrite IH.
Qed.

Lemma getValues_domain (keys : list string) (s : S) :
  let results := filed fst snd [] (fst (reads keys s)) in
  (forall k, obj_get results k <> None <-> In k keys /\ k <> proto)
  /\ (forall k v, obj_get results k = Some v -> In (k, v) (fst (reads keys s))).
Proof.
  cbv zeta. split.
  - intros k. rewrite <- obj_get_in, filed_keys. split.
    + intros (Hk & [k' v] & Hin & <-). split; [|exact Hk].
      rewrite <- (reads_keys keys s). apply in_map_iff. now exists (k', v).
    + intros [Hin Hk]. split; [exact Hk|].
      rewrite <- (reads_keys keys s) in Hin.
      apply in_map_iff in Hin as (x & <- & Hx). now exists x.
  - intros k v Hk. apply filed_in in Hk as ([k' v'] & Hin & Hname & Hv).
    cbn [fst snd] in *. now subst.
Qed.

Lemma reads_store_read_only (keys : list string) (s : S) :
  (forall k s0, after (getValue k s0) = s0) -> snd (reads keys s) = s.
Proof.
  intros Hro. induction keys as [|key keys IH]; [reflexivity|].
  cbn [reads]. rewrite Hro. now destruct (reads keys s).
Qed.

(** Over a backend whose reads leave the store as it is. *)
Lemma getValues_read_only (keys : list string) (c : Cache S) :
  (forall k s, after (getValue k s) = s) ->
  ~ In proto keys ->
  exists results,
    getValues keys c = (Fulfilled results, c)
    /\ obj_get results proto = None
    /\ forall k,
        In k keys ->
        obj_get results k = Some (result (getValue k (store c))).
Proof.
  intros Hro Hnot. exists (filed fst snd [] (fst (reads keys (store c)))).
  split; [|split].
  - unfold getValues.
    rewrite getValues_from_reads, reads_store_read_only by
      (try exact Hro; intros v Hv; now apply reads_without_proto in Hv).
    now destruct c.
  - now apply filed_no_proto.
  - intros k Hk.
    destruct (getValues_domain keys (store c)) as [Hdom Hin].
    assert (Hsome : obj_get (filed fst snd [] (fst (reads keys (store c)))) k
                    <> None).
    { apply Hdom. split; [exact Hk|]. now intros ->. }
    destruct (obj_get _ k) as [v|] eqn:E; [|congruence].
    apply Hin in E. rewrite (reads_read_only keys (store c) Hro) in E.
    apply in_map_iff in E as (k' & [= <- <-] & _). reflexivity.
Qed.


End BatchRead.

(** ** multiGet *)

Lemma entries_keys (ser : bool) (values : dict value) (keyMap : dict string)
  (es : dict value) :
  entries ser values keyMap = Some es -> map fst es = map fst keyMap.
Proof.
  revert es. induction keyMap as [|[key newKey] keyMap IH]; intros es; simpl.
  - now intros [= <-].
  - destruct (entry_of ser values newKey) as [e|]; [|discriminate].
    destruct (entries ser values keyMap) as [es'|]; [|discriminate].
    intros [= <-]. simpl. now rewrite (IH es').
Qed.

Lemma entries_in (ser : bool) (values : dict value) (keyMap : dict string)
  (es : dict value) (key newKey : string) :
  entries ser values keyMap = Some es ->
  In (key, newKey) keyMap ->
  exists e, entry_of ser values newKey = Some e /\ In (key, e) es.
Proof.
  revert es. induction keyMap as [|[k nk] keyMap IH]; intros es; simpl;
    [contradiction|].
  destruct (entry_of ser values nk) as [e|] eqn:E; [|discriminate].
  destruct (entries ser values keyMap) as [es'|]; [|discriminate].
  intros [= <-] [[= -> ->] | Hin].
  - exists e. split; [assumption | now left].
  - destruct (IH es' eq_refl Hin) as (e' & He' & Hin'). exists e'.
    split; [assumption | now right].
Qed.

Lemma entries_defined (ser : bool) (values : dict value)
  (keyMap : dict string) :
  (forall key newKey,
      In (key, newKey) keyMap -> entry_of ser values newKey <> None) ->
  exists es, entries ser values keyMap = Some es.
Proof.
  induction keyMap as [|[k nk] keyMap IH]; intros Hall; simpl; [eauto|].
  destruct (entry_of ser values nk) as [e|] eqn:E.
  - destruct IH as [es ->]; [|eauto]. intros key newKey Hin.
    apply (Hall key newKey). now right.
  - exfalso. apply (Hall k nk); [now left | assumption].
Qed.


(** The dictionary [results] that the entries of a [keyMap] make. *)
Lemma results_of_entries (ser : bool) (values : dict value)
  (keyMap : dict string) (es : dict value) :
  NoDup (map fst keyMap) ->
  obj_get keyMap proto = None ->
  entries ser values keyMap = Some es ->
  NoDup (map fst (filed fst snd [] es))
  /\ (forall k,
        In k (map fst (filed fst snd [] es)) <-> In k (map fst keyMap))
  /\ (forall k newKey,
        obj_get keyMap k = Some newKey ->
        obj_get (filed fst snd [] es) k = entry_of ser values newKey).
Proof.
  intros Hnd Hproto Hes. pose proof (entries_keys _ _ _ _ Hes) as Hkeys.
  assert (Hnot : forall k, In k (map fst keyMap) -> k <> proto).
  { intros k Hk ->. apply obj_get_in in Hk. contradiction. }
  split; [apply filed_NoDup; constructor|]. split.
  - intros k. rewrite filed_keys, <- Hkeys. split.
    + intros (_ & x & Hx & <-). now apply in_map.
    + intros Hk. split; [apply Hnot; now rewrite <- Hkeys|].
      apply in_map_iff in Hk as (x & <- & Hx). now exists x.
  - intros k newKey Hk. apply obj_get_some_in in Hk.
    destruct (entries_in _ _ _ _ _ _ Hes Hk) as (e & -> & Hin).
    apply (filed_get_in fst snd es (k, e)); [now rewrite Hkeys | exact Hin|].
    apply Hnot. apply in_map_iff. now exists (k, newKey).
Qed.

Section BatchGet.

Context {S : Type} `{Backend S}.

Lemma keyMap_from_filed (keys : list value) (keyMap : dict string)
  (c : Cache S) :
  keyMap_from keyMap keys c =
  (Fulfilled (filed property_name (storage_key c) keyMap keys), c).
Proof.
  revert keyMap. induction keys as [|k keys IH]; intros keyMap;
    [reflexivity|].
  cbn [keyMap_from]. unfold bind. rewrite buildKey_unfold.
  apply IH.
Qed.


Lemma keyMap_of_keys (c : Cache S) (keys : list value) :
  NoDup (map fst (keyMap_of c keys))
  /\ obj_get (keyMap_of c keys) proto = None
  /\ forall name,
      In name (map fst (keyMap_of c keys))
      <-> name <> proto /\ exists key, In key keys /\ property_name key = name.
Proof.
  split; [apply filed_NoDup; constructor|].
  split; [now apply filed_no_proto|]. intros name. apply filed_keys.
Qed.

Lemma keyMap_of_get (c : Cache S) (keys : list value) (name : string) :
  name <> proto ->
  obj_get (keyMap_of c keys) name
  = option_map (storage_key c) (last_named keys name).
Proof.
  intros Hname. unfold keyMap_of, last_named.
  rewrite filed_get by auto. cbn [obj_get].
  now destruct (find _ (rev keys)).
Qed.

Lemma last_named_string (keys : list string) (k : string) :
  In k keys -> last_named (map VStr keys) k = Some (VStr k).
Proof.
  intros Hk. unfold last_named.
  destruct (find _ (rev (map VStr keys))) as [key|] eqn:E.
  - apply find_some in E as [Hin Hname]. apply String.eqb_eq in Hname.
    apply in_rev, in_map_iff in Hin as (k' & <- & _).
    unfold property_name in Hname. cbn [ToString] in Hname.
    rewrite text_chars in Hname. now subst k'.
  - assert (Hin : In (VStr k) (rev (map VStr keys)))
      by (rewrite <- in_rev; now apply in_map).
    pose proof (find_none _ _ E _ Hin) as Hx. cbv beta in Hx.
    unfold property_name in Hx. cbn [ToString] in Hx.
    rewrite text_chars, String.eqb_refl in Hx. discriminate.
Qed.

Lemma decode_as_get (v : value) (c : Cache S) :
  (if negb (serialization c) then ret v else decode JSON_parse v) c =
  match as_get (serialization c) v with
  | Some d => (Fulfilled d, c)
  | None => (Rejected, c)
  end.
Proof.
  unfold as_get, decode, ret.
  destruct (serialization c); cbn [negb].
  - destruct v as [ | [|] | | | | ]; cbn [is_false orb]; try reflexivity.
  - now rewrite orb_true_r.
Qed.

Lemma results_from_entries (values : dict value) (keyMap : dict string)
  (results : dict value) (c : Cache S) :
  ~ In proto (map fst keyMap) ->
  results_from JSON_parse values results keyMap c =
  match entries (serialization c) values keyMap with
  | Some es => (Fulfilled (filed fst snd results es), c)
  | None => (Rejected, c)
  end.
Proof.
  revert results. induction keyMap as [|[key newKey] keyMap IH];
    intros results Hnot; [reflexivity|].
  cbn [map fst In] in Hnot.
  assert (Hkey : String.eqb key proto = false).
  { apply String.eqb_neq. intros ->. apply Hnot. now left. }
  assert (Hrest : ~ In proto (map fst keyMap)) by tauto.
  cbn [results_from entries]. unfold entry_of.
  destruct (obj_member values newKey) as [raw| |].
  - cbv beta iota delta [bind read]. rewrite decode_as_get.
    destruct (as_get (serialization c) raw) as [d|]; [|reflexivity].
    unfold replaces_prototype. rewrite Hkey. cbn [andb].
    rewrite (IH _ Hrest), put_twice.
    now destruct (entries (serialization c) values keyMap).
  - reflexivity.
  - rewrite (IH _ Hrest).
    now destruct (entries (serialization c) values keyMap).
Qed.

Lemma multiGet_with_entries (batch : list string -> M S (dict value))
  (keys : list value) (values : dict value) (c c1 : Cache S) :
  batch (map snd (keyMap_of c keys)) c = (Fulfilled values, c1) ->
  multiGet_with batch keys c =
  match entries (serialization c1) values (keyMap_of c keys) with
  | Some es => (Fulfilled (filed fst snd [] es), c1)
  | None => (Rejected, c1)
  end.
Proof.
  intros Hbatch. unfold multiGet_with, bind. rewrite keyMap_from_filed.
  fold (keyMap_of c keys). rewrite Hbatch. apply results_from_entries.
  intros Hin. apply obj_get_in in Hin.
  now destruct (keyMap_of_keys c keys) as (_ & Hproto & _).
Qed.

(** What [multiGet] returns for keys of any shape, when every entry is a
    value of the model. *)
Lemma multiGet_with_results (batch : list string -> M S (dict value))
  (keys : list value) (values : dict value) (c c1 : Cache S) :
  batch (map snd (keyMap_of c keys)) c = (Fulfilled values, c1) ->
  (forall key,
      In key keys -> property_name key <> proto ->
      entry_of (serialization c1) values (storage_key c key) <> None) ->
  exists results,
    multiGet_with batch keys c = (Fulfilled results, c1)
    /\ NoDup (map fst results)
    /\ (forall name,
          In name (map fst results)
          <-> name <> proto
              /\ exists key, In key keys /\ property_name key = name)
    /\ (forall name key,
          name <> proto ->
          last_named keys name = Some key ->
          obj_get results name
          = entry_of (serialization c1) values (storage_key c key)).
Proof.
  intros Hbatch Hdecodes.
  destruct (keyMap_of_keys c keys) as (Hnd & Hproto & Hdom).
  destruct (entries_defined (serialization c1) values (keyMap_of c keys))
    as [es Hes].
  { intros name newKey Hin.
    assert (Hname : name <> proto).
    { apply (Hdom name). apply in_map_iff. now exists (name, newKey). }
    apply in_obj_get in Hin; [|exact Hnd].
    rewrite keyMap_of_get in Hin by exact Hname.
    destruct (last_named keys name) as [key|] eqn:E; [|discriminate].
    injection Hin as <-. apply find_some in E as [Hin Hkey].
    apply String.eqb_eq in Hkey. apply Hdecodes; [now apply in_rev|].
    now rewrite Hkey. }
  destruct (results_of_entries _ _ _ _ Hnd Hproto Hes)
    as (Hnd' & Hdom' & Hget).
  exists (filed fst snd [] es). split; [|split; [exact Hnd'|split]].
  - now rewrite (multiGet_with_entries batch keys values c c1 Hbatch), Hes.
  - intros name. now rewrite Hdom', Hdom.
  - intros name key Hname Hlast. apply Hget.
    now rewrite keyMap_of_get, Hlast.
Qed.


(** X14.  With the default [getValues] over a backend whose reads leave
    the store as it is, [multiGet] on string keys returns for every key
    the result of [get] for that key, and leaves the instance as it is:
    for keys other than [__proto__] whose Storage Key is not [__proto__]
    and for which [get] returns a value of the model. *)
Lemma multiGet_agrees_with_get (keys : list string) (c : Cache S) :
  (forall k s, after (getValue k s) = s) ->
  (forall k,
      In k keys -> k <> proto /\ storage_key c (VStr k) <> proto) ->
  (forall k, In k keys -> exists d, fst (get (VStr k) c) = Fulfilled d) ->
  exists results,
    multiGet (map VStr keys) c = (Fulfilled results, c)
    /\ forall k,
        In k keys ->
        exists d,
          obj_get results k = Some d /\ fst (get (VStr k) c) = Fulfilled d.
Proof.
  intros Hro Hnames Hget.
  assert (Hname : forall k, property_name (VStr k) = k).
  { intros k. unfold property_name. cbn [ToString]. apply text_chars. }
  assert (Hstorage : ~ In proto (map snd (keyMap_of c (map VStr keys)))).
  { intros Hin. apply in_map_iff in Hin as ([name newKey] & Heq & Hin).
    cbn [snd] in Heq. subst newKey.
    destruct (keyMap_of_keys c (map VStr keys)) as (Hnd & _ & Hdom).
    assert (Hk : name <> proto
                 /\ exists key, In key (map VStr keys)
                                /\ property_name key = name).
    { apply Hdom. apply in_map_iff. now exists (name, proto). }
    destruct Hk as (Hne & key & Hkey & Hprop).
    apply in_map_iff in Hkey as (k & <- & Hk). rewrite Hname in Hprop.
    subst name. apply in_obj_get in Hin; [|exact Hnd].
    rewrite keyMap_of_get, (last_named_string keys k Hk) in Hin by exact Hne.
    injection Hin as Hin. now apply (proj2 (Hnames k Hk)). }
  destruct (getValues_read_only (map snd (keyMap_of c (map VStr keys))) c Hro
              Hstorage)
    as (values & Hbatch & _ & Hvalues).
  assert (Hentry : forall k,
             In k keys ->
             entry_of (serialization c) values (storage_key c (VStr k))
             = as_get (serialization c)
                 (result (getValue (storage_key c (VStr k)) (store c)))).
  { intros k Hk. destruct (Hnames k Hk) as [Hproto _].
    unfold entry_of, obj_member. rewrite Hvalues; [reflexivity|].
    apply in_map_iff. exists (k, storage_key c (VStr k)).
    split; [reflexivity|]. apply obj_get_some_in.
    now rewrite keyMap_of_get, (last_named_string keys k Hk). }
  assert (Hsome : forall k,
             In k keys ->
             exists d,
               as_get (serialization c)
                 (result (getValue (storage_key c (VStr k)) (store c)))
               = Some d
               /\ fst (get (VStr k) c) = Fulfilled d).
  { intros k Hk. destruct (Hget k Hk) as [d Hd]. exists d.
    split; [|exact Hd]. rewrite get_as_get in Hd.
    destruct (as_get _ _) as [d'|]; [congruence | discriminate]. }
  destruct (multiGet_with_results getValues (map VStr keys) values c c Hbatch)
    as (results & Hrun & _ & _ & Hres).
  { intros key Hin _. apply in_map_iff in Hin as (k & <- & Hk).
    rewrite (Hentry k Hk). destruct (Hsome k Hk) as (d & -> & _).
    discriminate. }
  exists results. split; [exact Hrun|].
  intros k Hk. destruct (Hnames k Hk) as [Hproto _].
  destruct (Hsome k Hk) as (d & Hd & Hgetd). exists d.
  split; [|exact Hgetd].
  now rewrite (Hres k (VStr k) Hproto (last_named_string keys k Hk)),
    (Hentry k Hk).
Qed.

End BatchGet.

(** ** The event loop *)

Lemma step_weight (w w' : loop) : step w = Some w' -> weight w = S (weight w').
Proof.
  destruct w as [fk ms cs saw]. unfold step. cbn [microtasks completions].
  destruct ms as [|j q].
  - destruct cs as [|[k ok] r]; [discriminate|]. intros [= <-].
    unfold weight. cbn. lia.
  - intros [= <-].
    destruct j as [[|n] k ok | [|n]]; unfold weight, run_job, enqueue;
      try destruct ok;
      cbn [microtasks completions map job_weight];
      rewrite ?map_app, ?list_sum_app; unfold list_sum;
      cbn [map job_weight fold_right]; lia.
Qed.

Lemma run_quiescent (fuel : nat) (w : loop) :
  weight w <= fuel -> step (run fuel w) = None.
Proof.
  revert w. induction fuel as [|fuel IH]; intros w Hw; cbn [run].
  - destruct (step w) as [w'|] eqn:E; [|reflexivity].
    apply step_weight in E. lia.
  - destruct (step w) as [w'|] eqn:E; [|exact E].
    apply IH. apply step_weight in E. lia.
Qed.

(** [drain] runs the loop until nothing is left to do. *)
Lemma drain_quiescent (w : loop) :
  microtasks (drain w) = [] /\ completions (drain w) = [].
Proof.
  pose proof (run_quiescent (weight w) w (Nat.le_refl _)) as Hq.
  fold (drain w) in Hq. unfold step in Hq.
  destruct (microtasks (drain w)); [|discriminate].
  destruct (completions (drain w)) as [|[k ok] r]; [auto | discriminate].
Qed.

Lemma run_invariant (P : loop -> Prop) :
  (forall w w', step w = Some w' -> P w -> P w') ->
  forall fuel w, P w -> P (run fuel w).
Proof.
  intros Hstep fuel. induction fuel as [|fuel IH]; intros w Hw; cbn [run];
    [assumption|].
  destruct (step w) as [w'|] eqn:E; [|assumption].
  apply IH. now apply (Hstep w).
Qed.

Lemma step_cases (w w' : loop) :
  step w = Some w' ->
  (exists j q,
      microtasks w = j :: q
      /\ w' = run_job j
                {| failedKeys := failedKeys w; microtasks := q;
                   completions := completions w;
                   caller_saw := caller_saw w |})
  \/ (exists key ok rest,
        microtasks w = [] /\ completions w = (key, ok) :: rest
        /\ w' = {| failedKeys := failedKeys w;
                   microtasks := [Settle 0 key ok];
                   completions := rest;
                   caller_saw := caller_saw w |}).
Proof.
  unfold step. destruct (microtasks w) as [|j q].
  - destruct (completions w) as [|[key ok] rest]; [discriminate|].
    intros [= <-]. right. now exists key, ok, rest.
  - intros [= <-]. left. now exists j, q.
Qed.

(** The caller resumes. *)
Lemma step_resumes (w w' : loop) : step w = Some w' -> resumes w -> resumes w'.
Proof.
  intros Hstep Hw. unfold resumes in *.
  apply step_cases in Hstep
    as [(j & q & Hq & ->) | (key & ok & rest & Hm & Hc & ->)].
  - rewrite Hq in Hw.
    destruct j as [[|n] k ok | [|n]]; cbn [run_job enqueue].
    + destruct ok; cbn [caller_saw microtasks];
        (destruct Hw as [Hw | (h & [Hw|Hw])];
         [now left | discriminate | right; now exists h]).
    + cbn [caller_saw microtasks].
      destruct Hw as [Hw | (h & [Hw|Hw])];
        [now left | discriminate | right; exists h; apply in_or_app; now left].
    + left. discriminate.
    + right. exists n. cbn [microtasks]. apply in_or_app. right. now left.
  - cbn [caller_saw microtasks]. rewrite Hm in Hw.
    destruct Hw as [Hw | (h & [])]. now left.
Qed.

Lemma drain_resumes (w : loop) :
  resumes w -> exists failed, caller_saw (drain w) = Some failed.
Proof.
  intros Hw.
  pose proof (run_invariant resumes step_resumes (weight w) w Hw) as Hr.
  fold (drain w) in Hr. destruct (drain_quiescent w) as [Hm _].
  destruct Hr as [Hr | (h & Hr)].
  - destruct (caller_saw (drain w)) as [failed|]; [eauto | congruence].
  - rewrite Hm in Hr. destruct Hr.
Qed.

(** Once the caller has looked, what it saw does not change. *)
Lemma step_seen (failed : list string) (w w' : loop) :
  step w = Some w' ->
  caller_saw w = Some failed
  /\ (forall hops, ~ In (Resume hops) (microtasks w)) ->
  caller_saw w' = Some failed
  /\ (forall hops, ~ In (Resume hops) (microtasks w')).
Proof.
  intros Hstep [Hsaw Hno].
  apply step_cases in Hstep
    as [(j & q & Hq & ->) | (key & ok & rest & Hm & Hc & ->)].
  - rewrite Hq in Hno.
    destruct j as [[|n] k ok | h]; cbn [run_job enqueue].
    + destruct ok; cbn [caller_saw microtasks]; split; try assumption;
        intros h Hin; apply (Hno h); now right.
    + cbn [caller_saw microtasks]. split; [assumption|].
      intros h Hin. apply in_app_or in Hin as [Hin|[Hin|[]]];
        [apply (Hno h); now right | discriminate].
    + exfalso. apply (Hno h). now left.
  - cbn [caller_saw microtasks]. split; [assumption|].
    intros h [Hin|[]]. discriminate.
Qed.

(** The pushes that are owed are the pushes that happen. *)
Lemma step_owed (key : string) (w w' : loop) :
  step w = Some w' -> (owed w key <-> owed w' key).
Proof.
  intros Hstep. unfold owed.
  apply step_cases in Hstep
    as [(j & q & Hq & ->) | (k & ok & rest & Hm & Hc & ->)].
  - rewrite Hq.
    destruct j as [[|n] k ok | [|n]]; cbn [run_job enqueue].
    + destruct ok; cbn [failedKeys microtasks completions].
      * split.
        -- intros [Hk | [(h & [Hk|Hk]) | Hk]]; auto; [discriminate|].
           right. left. now exists h.
        -- intros [Hk | [(h & Hk) | Hk]]; auto.
           right. left. exists h. now right.
      * split.
        -- intros [Hk | [(h & [Hk|Hk]) | Hk]]; auto.
           ++ left. apply in_or_app. now left.
           ++ injection Hk as _ <-. left. apply in_or_app. right. now left.
           ++ right. left. now exists h.
        -- intros [Hk | [(h & Hk) | Hk]]; auto.
           ++ apply in_app_or in Hk as [Hk|[<-|[]]]; [now left|].
              right. left. exists 0. now left.
           ++ right. left. exists h. now right.
    + cbn [failedKeys microtasks completions]. split.
      * intros [Hk | [(h & [Hk|Hk]) | Hk]]; auto.
        -- injection Hk as <- <- <-. right. left. exists n.
           apply in_or_app. right. now left.
        -- right. left. exists h. apply in_or_app. now left.
      * intros [Hk | [(h & Hk) | Hk]]; auto.
        apply in_app_or in Hk as [Hk|[Hk|[]]].
        -- right. left. exists h. now right.
        -- injection Hk as <- <- <-. right. left. eexists.
           left. reflexivity.
    + cbn [failedKeys microtasks completions]. split.
      * intros [Hk | [(h & [Hk|Hk]) | Hk]]; auto; [discriminate|].
        right. left. now exists h.
      * intros [Hk | [(h & Hk) | Hk]]; auto.
        right. left. exists h. now right.
    + cbn [failedKeys microtasks completions]. split.
      * intros [Hk | [(h & [Hk|Hk]) | Hk]]; auto; [discriminate|].
        right. left. exists h. apply in_or_app. now left.
      * intros [Hk | [(h & Hk) | Hk]]; auto.
        apply in_app_or in Hk as [Hk|[Hk|[]]]; [|discriminate].
        right. left. exists h. now right.
  - rewrite Hm, Hc. cbn [failedKeys microtasks completions]. split.
    + intros [Hk | [(h & []) | [Hk|Hk]]]; auto.
      injection Hk as <- <-. right. left. exists 0. now left.
    + intros [Hk | [(h & [Hk|[]]) | Hk]]; auto.
      * injection Hk as _ <- <-. right. right. now left.
      * right. right. now right.
Qed.

Lemma drain_owed (key : string) (w : loop) :
  In key (failedKeys (drain w)) <-> owed w key.
Proof.
  assert (Hrun : forall fuel w0, owed w0 key <-> owed (run fuel w0) key).
  { intros fuel. induction fuel as [|fuel IH]; intros w0; cbn [run];
      [tauto|].
    destruct (step w0) as [w1|] eqn:E; [|tauto].
    rewrite (step_owed key w0 w1 E). apply IH. }
  rewrite (Hrun (weight w) w). fold (drain w).
  destruct (drain_quiescent w) as [Hm Hc].
  unfold owed. rewrite Hm, Hc. split.
  - now left.
  - intros [Hk | [(h & []) | []]]. assumption.
Qed.

(** ** setValues, addValues and the batch writes *)

Lemma failures_in (outcomes : list (string * bool)) (key : string) :
  In key (failures outcomes) <-> In (key, false) outcomes.
Proof.
  unfold failures. rewrite in_map_iff. split.
  - intros ([k ok] & <- & Hin). apply filter_In in Hin as [Hin Hok].
    cbn [fst snd] in *. apply negb_true_iff in Hok. now subst ok.
  - intros Hin. exists (key, false). split; [reflexivity|].
    apply filter_In. now split.
Qed.

Lemma run_settled_jobs (outcomes : list (string * bool)) (fuel : nat)
  (fk : list string) (q : list job) (cs : list (string * bool))
  (saw : option (list string)) :
  run (List.length outcomes + fuel)
    {| failedKeys := fk; microtasks := map settle_now outcomes ++ q;
       completions := cs; caller_saw := saw |}
  = run fuel
      {| failedKeys := fk ++ failures outcomes; microtasks := q;
         completions := cs; caller_saw := saw |}.
Proof.
  revert fk. induction outcomes as [|[k ok] os IH]; intros fk.
  - cbn [List.length Nat.add map app]. unfold failures. cbn.
    now rewrite app_nil_r.
  - cbn [List.length Nat.add map app run step microtasks settle_now fst snd
         run_job failedKeys completions caller_saw].
    destruct ok; cbn [failedKeys microtasks completions caller_saw].
    + rewrite IH. reflexivity.
    + rewrite IH. unfold failures. cbn [filter snd negb map fst].
      now rewrite <- app_assoc.
Qed.

Lemma weight_settled_jobs (outcomes : list (string * bool)) :
  list_sum (map job_weight (map settle_now outcomes)) = List.length outcomes.
Proof.
  induction outcomes as [|o os IH]; [reflexivity|]. cbn. now rewrite <- IH.
Qed.

Section BatchWrite.

Context {S : Type}.
Variable write : string -> value -> Z -> S -> promise S bool.

Lemma suspend_owed (l : latency) (key k : string) (ok : bool) (w : loop) :
  owed (suspend l key ok w) k <-> owed w k \/ (key, ok) = (k, false).
Proof.
  unfold owed. destruct l as [hops|]; cbn [suspend enqueue failedKeys
    microtasks completions].
  - split.
    + intros [Hk | [(h & Hk) | Hk]]; auto.
      apply in_app_or in Hk as [Hk|[Hk|[]]]; [left; right; left; eauto|].
      injection Hk as _ <- <-. now right.
    + intros [[Hk | [(h & Hk) | Hk]] | Hk]; auto.
      * right. left. exists h. apply in_or_app. now left.
      * injection Hk as -> ->. right. left. exists hops.
        apply in_or_app. right. now left.
  - split.
    + intros [Hk | [Hk | Hk]]; auto.
      apply in_app_or in Hk as [Hk|[Hk|[]]]; auto.
    + intros [[Hk | [Hk | Hk]] | Hk]; auto.
      * right. right. apply in_or_app. now left.
      * right. right. apply in_or_app. right. now left.
Qed.

Lemma dispatch_owed (data : dict value) (duration : Z) (s : S) (w : loop)
  (k : string) :
  owed (snd (dispatch write data duration s w)) k
  <-> owed w k \/ In (k, false) (writes write data duration s).
Proof.
  revert s w. induction data as [|[key v] data IH]; intros s w.
  - cbn. tauto.
  - cbn [dispatch writes]. rewrite IH, suspend_owed. cbn [In]. tauto.
Qed.

(** Once every callback has run, the array that the batch writer returned
    holds the Storage Keys whose write failed, and no other. *)
Lemma settled_failures (data : dict value) (duration : Z) (s : S)
  (k : string) :
  In k (settled (fun d t s0 => dispatch write d t s0 idle) data duration s)
  <-> In k (failures (writes write data duration s)).
Proof.
  unfold settled. rewrite drain_owed, dispatch_owed, failures_in.
  unfold owed, idle. cbn. split; [|now right].
  intros [[[] | [(h & []) | []]] | Hk]. assumption.
Qed.

(** The caller of [multiSet] and [multiAdd] always gets an array. *)
Lemma awaited_fulfilled (batch : dict value -> Z -> S -> S * loop)
  (data : dict value) (duration : Z) (c : Cache S) :
  exists failed,
    awaited batch data duration c
    = (Fulfilled failed, with_store c (fst (batch data duration (store c)))).
Proof.
  unfold awaited. destruct (batch data duration (store c)) as [s w].
  destruct (drain_resumes (enqueue (Resume 1) w)) as [failed ->]; [|eauto].
  right. exists 1. cbn. apply in_or_app. right. now left.
Qed.

Lemma dispatch_deferred (data : dict value) (duration : Z) (s : S) (w : loop) :
  (forall key v t s0, settles (write key v t s0) = Macro) ->
  let w' := snd (dispatch write data duration s w) in
  failedKeys w' = failedKeys w
  /\ microtasks w' = microtasks w
  /\ caller_saw w' = caller_saw w.
Proof.
  intros Hmacro. revert s w. induction data as [|[key v] data IH];
    intros s w; cbn [dispatch]; [auto|].
  destruct (IH (after (write key v duration s))
              (suspend (settles (write key v duration s)) key
                 (result (write key v duration s)) w)) as (H1 & H2 & H3).
  rewrite Hmacro in *. cbn [suspend failedKeys microtasks caller_saw] in *.
  auto.
Qed.

(** When every write is answered by a later I/O event, the caller sees an
    empty array, whatever the writes report. *)
Lemma awaited_deferred (data : dict value) (duration : Z) (c : Cache S) :
  (forall key v t s0, settles (write key v t s0) = Macro) ->
  fst (awaited (fun d t s0 => dispatch write d t s0 idle) data duration c)
  = Fulfilled [].
Proof.
  intros Hmacro. unfold awaited.
  destruct (dispatch_deferred data duration (store c) idle Hmacro)
    as (Hfk & Hms & Hsaw).
  destruct (dispatch write data duration (store c) idle) as [s w].
  cbn [snd] in *. destruct w as [fk ms cs saw].
  cbn [failedKeys microtasks caller_saw idle] in *. subst fk ms saw.
  unfold drain, weight, enqueue.
  cbn [microtasks completions failedKeys caller_saw app map job_weight
       list_sum fold_right Nat.add run step run_job enqueue].
  match goal with
  | |- context [run ?n ?w] =>
      destruct (run_invariant
                  (fun w0 => caller_saw w0 = Some []
                             /\ forall h, ~ In (Resume h) (microtasks w0))
                  (step_seen []) n w) as [-> _]
  end; [|reflexivity].
  cbn. split; [reflexivity | intros h []].
Qed.

Lemma dispatch_settled (data : dict value) (duration : Z) (s : S) (w : loop) :
  (forall key v t s0, settles (write key v t s0) = Micro 0) ->
  snd (dispatch write data duration s w)
  = {| failedKeys := failedKeys w;
       microtasks :=
         microtasks w ++ map settle_now (writes write data duration s);
       completions := completions w;
       caller_saw := caller_saw w |}.
Proof.
  intros Hmicro. revert s w. induction data as [|[key v] data IH];
    intros s w; cbn [dispatch writes map].
  - rewrite app_nil_r. now destruct w.
  - rewrite IH, Hmicro.
    cbn [suspend enqueue failedKeys microtasks completions caller_saw].
    now rewrite <- app_assoc.
Qed.

(** When every write is settled at once, the caller sees the Storage
    Keys whose write failed, in the order of the calls. *)
Lemma awaited_settled (data : dict value) (duration : Z) (c : Cache S) :
  (forall key v t s0, settles (write key v t s0) = Micro 0) ->
  fst (awaited (fun d t s0 => dispatch write d t s0 idle) data duration c)
  = Fulfilled (failures (writes write data duration (store c))).
Proof.
  intros Hmicro. unfold awaited.
  pose proof (dispatch_settled data duration (store c) idle Hmicro) as Hw.
  destruct (dispatch write data duration (store c) idle) as [s w].
  cbn [snd] in Hw. subst w. set (os := writes write data duration (store c)).
  unfold drain, weight, enqueue.
  cbn [microtasks completions failedKeys caller_saw idle app List.length
       Nat.mul Nat.add].
  rewrite map_app, list_sum_app, Nat.add_0_r.
  rewrite weight_settled_jobs, run_settled_jobs. reflexivity.
Qed.

End BatchWrite.

(** ** The two backends *)

Lemma memory_keeps_writes : keeps_writes memory.
Proof.
  intros key v duration s _. cbn. unfold lookup.
  now rewrite obj_get_set_same.
Qed.

Lemma memory_reads_only (k : string) (s : memory) : after (getValue k s) = s.
Proof. reflexivity. Qed.

(** ** The claims on concrete inputs *)

Lemma data_from_fulfilled {S : Type} (calls : list (value * value))
  (data : dict value) (c : Cache S) :
  exists data', data_from data calls c = (Fulfilled data', c).
Proof.
  revert data. induction calls as [|[key v] calls IH]; intros data.
  - now exists data.
  - cbn [data_from]. unfold bind, encode, read, ret, buildKey. apply IH.
Qed.

(** C1 (the code departs from the claim).  On a replica that refuses every
    write and answers by I/O, [multiSet] and [multiAdd] hand the caller
    an empty array, whatever the items; for the item [a], the write of
    Storage Key [a] fails, the caller gets the empty array, and [a] is
    pushed into that array only after the caller has resumed. *)
Theorem multiSet_misses_failed_write :
  (forall (items : dict value) (duration : Z) (c : Cache replica),
      fst (multiSet items duration c) = Fulfilled []
      /\ fst (multiAdd items duration c) = Fulfilled [])
  /\ (let c := new_cache {| contents := [] |} in
      result (setValue "a" (VStr "1") 0 (store c)) = false
      /\ multiSet [("a"%string, VNum 1)] 0 c = (Fulfilled [], c)
      /\ multiAdd [("a"%string, VNum 1)] 0 c = (Fulfilled [], c)
      /\ settled setValues [("a"%string, VStr "1")] 0 (store c)
         = ["a"%string]
      /\ settled addValues [("a"%string, VStr "1")] 0 (store c)
         = ["a"%string]).
Proof.
  split.
  - intros items duration c. unfold multiSet, multiAdd, bind.
    destruct (data_from_fulfilled (forEach items) [] c) as [data ->].
    split.
    + apply (awaited_deferred setValue data duration c). reflexivity.
    + apply (awaited_deferred addValue data duration c). reflexivity.
  - repeat split.
Qed.

(** On the store in memory, whose writes are settled at once, the same
    calls report the key that [add] refused. *)
Example multiAdd_memory :
  fst (multiAdd [("a"%string, VNum 1); ("b"%string, VNum 2)] 0
         (new_cache ([("a"%string, VStr "0")] : memory)))
  = Fulfilled ["a"%string].
Proof. reflexivity. Qed.





Lemma buildKey_short_string_witness :
  String.length "user:42" <= 32
  /\ buildKey (VStr "user:42") (app_cache true)
     = (Fulfilled "app:user:42"%string, app_cache true).
Proof.
  split.
  - simpl. lia.
  - apply (buildKey_short_string (app_cache true) "user:42"). simpl. lia.
Defined.

Lemma buildKey_deterministic_digest_witness :
  let c := app_cache true in
  let ones := VArr (repeat (VNum 1) 17) in
  let text_of_ones := VStr "[1,1,1,1,1,1,1,1,1,1,1,1,1,1,1,1,1]" in
  fst (buildKey (VNum 42) c) = fst (buildKey (VNum 42) (snd (buildKey (VNum 42) c)))
  /\ hashed (VNum 42) = true
  /\ encodable (VNum 42) = true
  /\ (exists digest,
        buildKey (VNum 42) c = (Fulfilled ("app:" ++ digest)%string, c)
        /\ digest = mb5 (canonical (VNum 42))
        /\ String.length digest = 32
        /\ forallb is_hex (chars digest) = true)
  /\ buildKey (VNum 42) c
     = (Fulfilled "app:a1d0c6e83f027327d8461063f4ac58a6"%string, c)
  /\ canonical ones = canonical text_of_ones
  /\ buildKey ones c = buildKey text_of_ones c.
Proof.
  intros c ones text_of_ones.
  destruct (buildKey_deterministic_digest c (VNum 42))
    as (Hsame & Hdigest & _ & _ & _ & Hvector & _).
  destruct (buildKey_deterministic_digest c ones) as (_ & _ & Hequal & _).
  split.
  - apply (Hsame _ (snd (buildKey (VNum 42) c)) _
             (snd (buildKey (VNum 42) (snd (buildKey (VNum 42) c)))));
      reflexivity.
  - split; [reflexivity|]. split; [reflexivity|].
    split; [apply Hdigest; reflexivity|].
    split; [exact Hvector|]. split; [reflexivity|].
    apply Hequal; reflexivity.
Defined.

Lemma get_absent_undecoded_witness :
  result (getValue (storage_key (app_cache true) (VStr "missing"))
            (store (app_cache true))) = absent
  /\ get (VStr "missing") (app_cache true)
     = (Fulfilled absent, app_cache true).
Proof.
  split; [reflexivity|].
  exact (get_absent_undecoded JSON_parse (VStr "missing") (app_cache true)
           eq_refl).
Defined.

(** C7 as stated fails: [false] stored by a successful [set] is read back
    as the absence sentinel. *)
Lemma stored_false_reads_as_absent :
  ~ (forall (c c1 : Cache memory) (key v : value) (duration : Z),
        In v [VBool false; VNum 0; VStr ""] ->
        set key v duration c = (Fulfilled true, c1) ->
        fst (get key c1) <> Fulfilled absent).
Proof.
  intros Hclaim.
  apply (Hclaim (app_cache true) _ (VStr "k") (VBool false) 0%Z
           (or_introl eq_refl) eq_refl).
  reflexivity.
Qed.

Lemma stored_value_not_absent_witness :
  VNum 0 <> VBool false
  /\ set (VStr "k") (VNum 0) 0 (app_cache true)
     = (Fulfilled true,
        with_store (app_cache true) [("app:k"%string, VStr "0")])
  /\ fst (get (VStr "k")
            (with_store (app_cache true) [("app:k"%string, VStr "0")]))
     = Fulfilled (VNum 0)
  /\ fst (get (VStr "k")
            (with_store (app_cache true) [("app:k"%string, VStr "0")]))
     <> Fulfilled absent.
Proof.
  assert (Hne : VNum 0 <> VBool false) by discriminate.
  split; [exact Hne|]. split; [reflexivity|].
  apply (proj2 (stored_value_not_absent (VStr "k") (VNum 0) 0
                  (app_cache true)
                  (with_store (app_cache true) [("app:k"%string, VStr "0")])
                  memory_keeps_writes)).
  - exact Hne.
  - reflexivity.
  - reflexivity.
Defined.

Lemma set_get_roundtrip_witness :
  let v := VObj [("a"%string, VNum 1)] in
  let c1 := snd (set (VStr "k") v 0 (app_cache true)) in
  let c2 := snd (set (VStr "k") (VStr "raw") 0 (app_cache false)) in
  encodable v = true
  /\ fst (get (VStr "k") c1) = Fulfilled v
  /\ fst (get (VStr "k") c2) = Fulfilled (VStr "raw").
Proof.
  intros v c1 c2. split; [reflexivity|]. split.
  - apply (proj1 (set_get_roundtrip (VStr "k") 0 (app_cache true) c1
                    memory_keeps_writes)); reflexivity.
  - apply (proj2 (set_get_roundtrip (VStr "k") 0 (app_cache false) c2
                    memory_keeps_writes)); reflexivity.
Defined.

Lemma exists_get_disagree_witness :
  let c := snd (set (VStr "k") (VBool false) 0 (app_cache true)) in
  store c = [("app:k"%string, VStr "false")]
  /\ fst (exists_ (VStr "k") c) = Fulfilled true
  /\ fst (get (VStr "k") c) = Fulfilled absent.
Proof.
  intros c. split; [reflexivity|].
  apply (exists_get_disagree (VStr "k") c); reflexivity.
Defined.

(* ================================================================== *)
(** * Part III: further properties of the methods                      *)
(* ================================================================== *)

(** ** Strings *)

Lemma length_append (a b : string) :
  String.length (a ++ b) = String.length a + String.length b.
Proof. induction a as [|c a IH]; simpl; [reflexivity | now rewrite IH]. Qed.

Lemma append_cancel (p a b : string) : (p ++ a)%string = (p ++ b)%string -> a = b.
Proof.
  induction p as [|c p IH]; simpl; intros Heq; [exact Heq|].
  injection Heq as Heq. now apply IH.
Qed.

Lemma append_same_length (p q a b : string) :
  String.length p = String.length q ->
  (p ++ a)%string = (q ++ b)%string -> p = q /\ a = b.
Proof.
  revert q. induction p as [|x p IH]; intros [|y q]; simpl;
    intros Hlen Heq; try discriminate; [now split|].
  injection Heq as -> Heq. injection Hlen as Hlen.
  destruct (IH q Hlen Heq) as [-> ->]. now split.
Qed.

Lemma append_append (p q a : string) :
  ((p ++ q) ++ a)%string = (p ++ (q ++ a))%string.
Proof. induction p as [|x p IH]; simpl; [reflexivity | now rewrite IH]. Qed.

Lemma normalize_length (key : value) : String.length (normalize key) <= 32.
Proof.
  destruct key as [ | b | n | s | vs | ps ]; unfold normalize;
    try (rewrite (proj1 (mb5_format _)); lia).
  destruct (String.length s <=? 32) eqn:E.
  - now apply Nat.leb_le.
  - rewrite (proj1 (mb5_format _)). lia.
Qed.

Lemma normalize_hashed (key : value) :
  hashed key = true -> normalize key = mb5 (canonical key).
Proof.
  destruct key as [ | b | n | s | vs | ps ]; intros Hk; try reflexivity.
  unfold normalize, canonical. simpl in Hk.
  apply negb_true_iff in Hk. now rewrite Hk.
Qed.

Lemma normalize_short (s : string) :
  String.length s <= 32 -> normalize (VStr s) = s.
Proof. intros Hs. unfold normalize. apply Nat.leb_le in Hs. now rewrite Hs. Qed.

(** ** More on buildKey *)

Section StorageKeys.

Context {S : Type}.

(** X1.  Every Storage Key is [keyPrefix] followed by at most 32
    characters, and by exactly 32 when the key is hashed: the length of a
    Storage Key never exceeds the length of the prefix plus 32, however
    large the Cache Key. *)
Theorem storage_key_bounded (c : Cache S) (key : value) :
  exists suffix,
    buildKey key c = (Fulfilled (keyPrefix c ++ suffix)%string, c)
    /\ String.length suffix <= 32
    /\ String.length (keyPrefix c ++ suffix)
       = String.length (keyPrefix c) + String.length suffix
    /\ (hashed key = true -> String.length suffix = 32).
Proof.
  exists (normalize key). split; [reflexivity|].
  split; [apply normalize_length|]. split; [apply length_append|].
  intros Hk. rewrite (normalize_hashed key Hk). apply mb5_format.
Qed.

(** X2.  Two different string Cache Keys of at most 32 characters never
    get the same Storage Key on an instance. *)
Theorem short_keys_do_not_collide (c : Cache S) (s1 s2 : string) :
  String.length s1 <= 32 ->
  String.length s2 <= 32 ->
  s1 <> s2 ->
  buildKey (VStr s1) c <> buildKey (VStr s2) c.
Proof.
  intros H1 H2 Hne. rewrite !buildKey_unfold. unfold storage_key.
  rewrite (normalize_short s1 H1), (normalize_short s2 H2).
  intros [= Heq]. now apply append_cancel in Heq.
Qed.

(** X3.  The part of a Storage Key after the prefix, used as a string
    Cache Key, gets the Storage Key it came from.  So a hashed key shares
    its Storage Key with a different Cache Key, the string of its digest;
    and a string of at most 32 characters shares the Storage Key of a
    hashed key exactly when it is that digest. *)
Theorem digest_string_shares_storage_key (c : Cache S) (key : value) :
  (forall suffix,
      buildKey key c = (Fulfilled (keyPrefix c ++ suffix)%string, c) ->
      buildKey (VStr suffix) c = buildKey key c)
  /\ (hashed key = true ->
      VStr (mb5 (canonical key)) <> key
      /\ forall s,
          String.length s <= 32 ->
          (buildKey (VStr s) c = buildKey key c <-> s = mb5 (canonical key))).
Proof.
  split.
  - intros suffix. rewrite !buildKey_unfold. unfold storage_key.
    intros [= Heq]. apply append_cancel in Heq. subst suffix.
    now rewrite (normalize_short _ (normalize_length key)).
  - intros Hk. split.
    + destruct key as [ | b | n | s | vs | ps ]; try discriminate.
      intros [= Heq]. simpl in Hk. apply negb_true_iff in Hk.
      apply Nat.leb_gt in Hk.
      pose proof (proj1 (mb5_format s)) as Hlen.
      rewrite Heq in Hlen. lia.
    + intros s Hs. rewrite !buildKey_unfold. unfold storage_key.
      rewrite (normalize_short s Hs), (normalize_hashed key Hk). split.
      * intros [= Heq]. now apply append_cancel in Heq.
      * now intros ->.
Qed.

(** X15.  Two instances whose prefixes have the same length and differ
    never build the same Storage Key, whatever the Cache Keys.  Prefixes
    of different lengths do not give that: when the prefix of one instance
    continues the prefix of the other, a short string key of the first
    that starts with the continuation gets the Storage Key of the rest of
    the string on the second. *)
Theorem prefixes_separate_instances (c1 c2 : Cache S) :
  (String.length (keyPrefix c1) = String.length (keyPrefix c2) ->
   keyPrefix c1 <> keyPrefix c2 ->
   forall k1 k2, fst (buildKey k1 c1) <> fst (buildKey k2 c2))
  /\ (forall more rest,
        keyPrefix c2 = (keyPrefix c1 ++ more)%string ->
        String.length (more ++ rest) <= 32 ->
        fst (buildKey (VStr (more ++ rest)) c1)
        = fst (buildKey (VStr rest) c2)).
Proof.
  split.
  - intros Hlen Hne k1 k2. rewrite !buildKey_unfold. unfold storage_key.
    cbn [fst]. intros [= Heq].
    now destruct (append_same_length _ _ _ _ Hlen Heq).
  - intros more rest Hprefix Hshort. rewrite !buildKey_unfold.
    unfold storage_key. cbn [fst].
    pose proof (length_append more rest) as Hl.
    rewrite (normalize_short _ Hshort), normalize_short by lia.
    now rewrite Hprefix, append_append.
Qed.

End StorageKeys.

(** ** How the single-key methods compose *)

Section Composition.

Context {S : Type} `{Backend S}.

Lemma add_unfold (key v : value) (duration : Z) (c : Cache S) :
  add key v duration c =
  let p := addValue (storage_key c key) (stored_form (serialization c) v)
             duration (store c) in
  (Fulfilled (result p), with_store c (after p)).
Proof. reflexivity. Qed.

Lemma delete_unfold (key : value) (c : Cache S) :
  delete key c =
  let p := deleteValue (storage_key c key) (store c) in
  (Fulfilled (result p), with_store c (after p)).
Proof. reflexivity. Qed.

Lemma flush_unfold (c : Cache S) :
  flush c =
  (Fulfilled (result (flushValues (store c))),
   with_store c (after (flushValues (store c)))).
Proof. reflexivity. Qed.

Lemma storage_key_with_store (c : Cache S) (s : S) (key : value) :
  storage_key (with_store c s) key = storage_key c key.
Proof. reflexivity. Qed.

(** What [get] and [exists] return when [getValue] reports absence. *)
Lemma absent_read (key : value) (c : Cache S) :
  result (getValue (storage_key c key) (store c)) = absent ->
  fst (get key c) = Fulfilled absent /\ fst (exists_ key c) = Fulfilled false.
Proof.
  intros Habsent. split.
  - unfold get. rewrite get_with_unfold. cbv zeta. now rewrite Habsent.
  - rewrite exists_unfold. cbv zeta. now rewrite Habsent.
Qed.

(** X4.  [exists] and [get] make the same call of [getValue] and leave the
    same store.  When [exists] answers false, [get] returns the absence
    sentinel; with serialization off the two always agree: [exists] is
    true exactly when the result of [get] is not the sentinel. *)
Theorem exists_agrees_with_get (key : value) (c : Cache S) :
  snd (exists_ key c) = snd (get key c)
  /\ (fst (exists_ key c) = Fulfilled false ->
      fst (get key c) = Fulfilled absent)
  /\ (serialization c = false ->
      exists v,
        fst (get key c) = Fulfilled v
        /\ fst (exists_ key c) = Fulfilled (negb (is_false v))).
Proof.
  unfold get. rewrite get_with_unfold, exists_unfold. cbv zeta.
  set (p := getValue (storage_key c key) (store c)).
  split; [|split].
  - destruct (is_false (result p) || negb (serialization c));
      [reflexivity|]. now destruct (JSON_parse _).
  - cbn [fst]. intros [= Hfalse]. apply negb_false_iff in Hfalse.
    now rewrite Hfalse; destruct (result p) as [ | [|] | | | | ].
  - intros Hser. rewrite Hser, orb_true_r. now exists (result p).
Qed.

(** X5.  After a successful [delete(k)] on a backend whose delete removes
    the entry, [get(k)] returns the absence sentinel and [exists(k)] is
    false, for a Cache Key of any shape: the three methods address the
    same Storage Key. *)
Theorem delete_then_absent (key : value) (c c1 : Cache S) :
  removes_deleted S ->
  delete key c = (Fulfilled true, c1) ->
  fst (get key c1) = Fulfilled absent
  /\ fst (exists_ key c1) = Fulfilled false.
Proof.
  intros Hremoves. rewrite delete_unfold. cbv zeta. intros [= Hok <-].
  apply absent_read.
  change (storage_key (with_store c ?s) key) with (storage_key c key).
  cbn [store with_store]. now apply Hremoves.
Qed.

(** X6.  After a successful [flush] on a backend whose flush empties the
    store, [exists] is false and [get] returns the absence sentinel for
    every Cache Key; [flush] does not use [keyPrefix], so this holds for
    the keys of every instance that shares the store. *)
Theorem flush_then_nothing_exists (c c1 : Cache S) :
  flush_empties S ->
  flush c = (Fulfilled true, c1) ->
  forall (prefix : string) (key : value),
    let c' := {| keyPrefix := prefix; serialization := serialization c1;
                 store := store c1 |} in
    fst (exists_ key c') = Fulfilled false
    /\ fst (get key c') = Fulfilled absent.
Proof.
  intros Hempties. rewrite flush_unfold. intros [= Hok <-] prefix key c'.
  destruct (absent_read key c') as [Hget Hexists]; [|now split].
  subst c'. cbn [store with_store]. now apply Hempties.
Qed.

(** X7.  On a backend that keeps what was written and whose
    write-if-absent refuses a present key, [add(k, v2)] after a successful
    [set(k, v1)] returns false and [get(k)] still returns [v1]. *)
Theorem add_after_set_refused (key v1 v2 : value) (d1 d2 : Z)
  (c c1 c2 : Cache S) (added : outcome bool) :
  keeps_writes S ->
  add_refuses_present S ->
  (serialization c = true -> encodable v1 = true) ->
  (serialization c = false -> v1 <> VBool false) ->
  set key v1 d1 c = (Fulfilled true, c1) ->
  add key v2 d2 c1 = (added, c2) ->
  added = Fulfilled false /\ fst (get key c2) = Fulfilled v1.
Proof.
  intros Hkeeps Hrefuses Henc Hv1 Hset Hadd.
  pose proof (get_after_set key v1 d1 c c1 Hkeeps Henc Hset) as Hget.
  rewrite set_unfold in Hset. cbv zeta in Hset. injection Hset as Hok <-.
  rewrite add_unfold in Hadd. cbv zeta in Hadd.
  change (storage_key (with_store c ?s) key) with (storage_key c key) in *.
  cbn [store serialization with_store] in *.
  set (sk := storage_key c key) in *.
  set (s1 := after (setValue sk _ d1 (store c))) in *.
  assert (Hraw : result (getValue sk s1) = stored_form (serialization c) v1).
  { unfold s1. now apply Hkeeps. }
  assert (Hpresent : result (getValue sk s1) <> absent).
  { rewrite Hraw. unfold stored_form, absent.
    destruct (serialization c); [discriminate | now apply Hv1]. }
  destruct (Hrefuses sk (stored_form (serialization c) v2) d2 s1 Hpresent)
    as [Hfalse Hsame].
  injection Hadd as <- <-. rewrite Hfalse. split; [reflexivity|].
  unfold get in *. rewrite get_with_unfold in *. cbv zeta in *.
  rewrite !storage_key_with_store in *.
  cbn [store serialization with_store fst] in *.
  fold sk in Hget |- *. fold s1 in Hget.
  rewrite Hsame.
  destruct (is_false (result (getValue sk s1)) || negb (serialization c));
    [exact Hget|].
  destruct (JSON_parse _); exact Hget.
Qed.

End Composition.

(** ** multiGet on keys of any shape *)

Section AnyKeys.

Context {S : Type} `{Backend S}.


End AnyKeys.

(** ** What the caller of a batch write sees *)

Lemma step_drain (w w' : loop) : step w = Some w' -> drain w = drain w'.
Proof.
  intros Hstep. unfold drain. rewrite (step_weight w w' Hstep).
  cbn [run]. now rewrite Hstep.
Qed.

Lemma drain_run (n : nat) (w : loop) : drain (run n w) = drain w.
Proof.
  revert w. induction n as [|n IH]; intros w; cbn [run]; [reflexivity|].
  destruct (step w) as [w'|] eqn:E; [|reflexivity].
  rewrite IH. symmetry. now apply step_drain.
Qed.

Lemma run_pass (q : list job) (fk : list string) (tail : list job)
  (cs : list (string * bool)) (saw : option (list string)) :
  settles_only q = true ->
  run (List.length q)
    {| failedKeys := fk; microtasks := q ++ tail; completions := cs;
       caller_saw := saw |}
  = {| failedKeys := fk ++ pushed q; microtasks := tail ++ requeued q;
       completions := cs; caller_saw := saw |}.
Proof.
  revert fk tail. induction q as [|j q IH]; intros fk tail Hq.
  - cbn. now rewrite !app_nil_r.
  - cbn [settles_only forallb] in Hq. apply andb_prop in Hq as [Hj Hq].
    destruct j as [[|h] k ok | h]; [| |discriminate].
    + cbn [List.length run step microtasks app run_job failedKeys
           completions caller_saw].
      destruct ok; cbn [pushed requeued].
      * now rewrite (IH fk tail Hq).
      * rewrite (IH (fk ++ [k]) tail Hq). now rewrite <- app_assoc.
    + cbn [List.length run step microtasks app run_job enqueue failedKeys
           completions caller_saw pushed requeued].
      unfold enqueue. cbn [failedKeys microtasks completions caller_saw].
      rewrite <- app_assoc. rewrite (IH fk (tail ++ [Settle h k ok]) Hq).
      now rewrite <- app_assoc.
Qed.

Lemma requeued_settles_only (q : list job) :
  settles_only q = true -> settles_only (requeued q) = true.
Proof.
  induction q as [|[[|h] k ok | h] q IH]; cbn; intros Hq; auto; discriminate.
Qed.

Lemma settles_only_no_resume (q : list job) :
  settles_only q = true -> forall h, ~ In (Resume h) q.
Proof.
  unfold settles_only. rewrite forallb_forall. intros Hq h Hin.
  specialize (Hq _ Hin). discriminate.
Qed.

(** The caller resumes after two turns: it sees the pushes of the
    callbacks that resumed in the first and in the second. *)
Lemma drain_two_passes (q : list job) (cs : list (string * bool)) :
  settles_only q = true ->
  caller_saw
    (drain
       (enqueue (Resume 1)
          {| failedKeys := []; microtasks := q; completions := cs;
             caller_saw := None |}))
  = Some (pushed q ++ pushed (requeued q)).
Proof.
  intros Hq. unfold enqueue.
  cbn [failedKeys microtasks completions caller_saw].
  rewrite <- (drain_run (List.length q)), (run_pass q [] [Resume 1] cs None Hq).
  cbn [app].
  rewrite (step_drain _
             {| failedKeys := pushed q;
                microtasks := requeued q ++ [Resume 0];
                completions := cs; caller_saw := None |}) by reflexivity.
  rewrite <- (drain_run (List.length (requeued q))).
  rewrite (run_pass (requeued q) (pushed q) [Resume 0] cs None
             (requeued_settles_only q Hq)).
  cbn [app].
  rewrite (step_drain _
             {| failedKeys := pushed q ++ pushed (requeued q);
                microtasks := requeued (requeued q);
                completions := cs;
                caller_saw := Some (pushed q ++ pushed (requeued q)) |})
    by reflexivity.
  unfold drain.
  apply (run_invariant
           (fun w0 => caller_saw w0 = Some (pushed q ++ pushed (requeued q))
                      /\ forall h, ~ In (Resume h) (microtasks w0))
           (step_seen _)).
  split; [reflexivity|]. cbn [microtasks].
  apply settles_only_no_resume.
  now apply requeued_settles_only, requeued_settles_only.
Qed.

Lemma jobs_of_settles_only (calls : list (latency * (string * bool))) :
  settles_only (jobs_of calls) = true.
Proof.
  induction calls as [|[[h|] [k ok]] calls IH]; cbn; auto.
Qed.

Lemma pushed_jobs_of (calls : list (latency * (string * bool))) :
  pushed (jobs_of calls) = failed_after 0 calls
  /\ pushed (requeued (jobs_of calls)) = failed_after 1 calls.
Proof.
  unfold failed_after.
  induction calls as [|[[[|[|h]]|] [k [|]]] calls [IH0 IH1]];
    cbn; rewrite ?IH0, ?IH1; auto.
Qed.

Lemma writes_timed {S : Type}
  (write : string -> value -> Z -> S -> promise S bool)
  (data : dict value) (duration : Z) (s : S) :
  writes write data duration s = map snd (timed_writes write data duration s).
Proof.
  revert s. induction data as [|[key v] data IH]; intros s; [reflexivity|].
  cbn. now rewrite IH.
Qed.

Lemma timed_writes_latency {S : Type}
  (write : string -> value -> Z -> S -> promise S bool)
  (data : dict value) (duration : Z) (s : S) (l : latency)
  (o : string * bool) :
  In (l, o) (timed_writes write data duration s) ->
  exists key v s0, l = settles (write key v duration s0).
Proof.
  revert s. induction data as [|[key v] data IH]; intros s; cbn;
    [contradiction|].
  intros [[= <- <-] | Hin]; [now exists key, v, s | now apply (IH _ Hin)].
Qed.

Lemma dispatch_jobs {S : Type}
  (write : string -> value -> Z -> S -> promise S bool)
  (data : dict value) (duration : Z) (s : S) (w : loop) :
  snd (dispatch write data duration s w)
  = {| failedKeys := failedKeys w;
       microtasks :=
         microtasks w ++ jobs_of (timed_writes write data duration s);
       completions :=
         completions w ++ ios_of (timed_writes write data duration s);
       caller_saw := caller_saw w |}.
Proof.
  revert s w. induction data as [|[key v] data IH]; intros s w;
    cbn [dispatch timed_writes jobs_of ios_of].
  - rewrite !app_nil_r. now destruct w.
  - rewrite IH. destruct (settles (write key v duration s)) as [h|];
      cbn [suspend enqueue failedKeys microtasks completions caller_saw
           jobs_of ios_of];
      now rewrite <- app_assoc.
Qed.

(** What the caller of [return await batch(data, duration)] sees, for the
    default batch writer over the primitive [write]. *)
Lemma awaited_sees {S : Type}
  (write : string -> value -> Z -> S -> promise S bool)
  (data : dict value) (duration : Z) (c : Cache S) :
  fst (awaited (fun d t s0 => dispatch write d t s0 idle) data duration c)
  = Fulfilled
      (failed_after 0 (timed_writes write data duration (store c))
       ++ failed_after 1 (timed_writes write data duration (store c))).
Proof.
  unfold awaited.
  pose proof (dispatch_jobs write data duration (store c) idle) as Hw.
  destruct (dispatch write data duration (store c) idle) as [s w].
  cbn [snd] in Hw. subst w.
  cbn [idle failedKeys microtasks completions caller_saw app].
  rewrite drain_two_passes by apply jobs_of_settles_only.
  destruct (pushed_jobs_of (timed_writes write data duration (store c)))
    as [-> ->].
  reflexivity.
Qed.

Lemma failed_after_in (hops : nat) (calls : list (latency * (string * bool)))
  (k : string) :
  In k (failed_after hops calls) <-> In (Micro hops, (k, false)) calls.
Proof.
  unfold failed_after. rewrite in_map_iff. split.
  - intros ([l [k' ok]] & <- & Hin). apply filter_In in Hin as [Hin Hcall].
    cbn [fst snd] in *. destruct l as [h|]; [|discriminate].
    apply andb_prop in Hcall as [Hh Hok]. apply Nat.eqb_eq in Hh.
    apply negb_true_iff in Hok. now subst.
  - intros Hin. exists (Micro hops, (k, false)). split; [reflexivity|].
    apply filter_In. split; [assumption|]. cbn. now rewrite Nat.eqb_refl.
Qed.

Lemma NoDup_map_append (p : string) (l : list string) :
  NoDup l -> NoDup (map (String.append p) l).
Proof.
  induction 1 as [|x l Hx Hl IH]; cbn; constructor; [|assumption].
  intros Hin. apply in_map_iff in Hin as (y & Heq & Hy).
  apply append_cancel in Heq. now subst y.
Qed.

Lemma find_map {X Y : Type} (f : X -> Y) (P : Y -> bool) (l : list X) :
  find P (map f l) = option_map f (find (fun x => P (f x)) l).
Proof.
  induction l as [|x l IH]; cbn; [reflexivity|]. now destruct (P (f x)).
Qed.

(** An object without a numeric [length] is walked by name. *)
Lemma forEach_named (items : dict value) :
  array_like items = None ->
  forEach items = map (fun p => (VStr (fst p), snd p)) items.
Proof. intros Hplain. unfold forEach. now rewrite Hplain. Qed.

(** An object whose [length] is 0 is not walked at all. *)
Lemma forEach_empty (items : dict value) :
  array_like items = Some 0%N -> forEach items = [].
Proof.
  intros Hlike. unfold forEach, indexed. rewrite Hlike.
  assert (Hfold : forall acc,
             fold_left
               (fun acc p =>
                  match numeric_name (fst p) with
                  | Some i => if (i <? 0)%N then by_index acc i (snd p) else acc
                  | None => acc
                  end)
               items acc
             = acc).
  { clear Hlike. induction items as [|p items IH]; intros acc; [reflexivity|].
    cbn [fold_left]. destruct (numeric_name (fst p)) as [i|]; [|apply IH].
    destruct i; apply IH. }
  rewrite Hfold. reflexivity.
Qed.

Section BatchWrites.

Context {S : Type} `{Backend S}.

Lemma data_from_filed (calls : list (value * value)) (data : dict value)
  (c : Cache S) :
  data_from data calls c =
  (Fulfilled
     (filed (fun call => storage_key c (fst call))
        (fun call => stored_form (serialization c) (snd call)) data calls),
   c).
Proof.
  revert data. induction calls as [|[key v] calls IH]; intros data;
    [reflexivity|].
  cbn [data_from]. unfold bind, encode, read, ret, buildKey. apply IH.
Qed.

Lemma multiSet_unfold (items : dict value) (duration : Z) (c : Cache S) :
  multiSet items duration c = awaited setValues (data_of c items) duration c
  /\ multiAdd items duration c
     = awaited addValues (data_of c items) duration c.
Proof.
  unfold multiSet, multiAdd, bind. now rewrite data_from_filed.
Qed.

(** A batch of nothing: no write, and the caller gets an empty array. *)
Lemma awaited_nothing
  (write : string -> value -> Z -> S -> promise S bool) (duration : Z)
  (c : Cache S) :
  awaited (fun d t s0 => dispatch write d t s0 idle) [] duration c
  = (Fulfilled [], c).
Proof. destruct c. reflexivity. Qed.

Lemma data_of_get (items : dict value) (c : Cache S) (newKey : string) :
  array_like items = None ->
  newKey <> proto ->
  obj_get (data_of c items) newKey
  = option_map (fun item => stored_form (serialization c) (snd item))
      (last_stored c items newKey).
Proof.
  intros Hplain Hkey. unfold data_of, last_stored.
  rewrite (forEach_named items Hplain), filed_get by auto.
  rewrite <- map_rev, find_map. cbn [fst snd obj_get].
  now destruct (find _ (rev items)).
Qed.

Lemma storage_key_short (c : Cache S) (k : string) :
  String.length k <= 32 ->
  storage_key c (VStr k) = (keyPrefix c ++ k)%string.
Proof. intros Hk. unfold storage_key. now rewrite (normalize_short k Hk). Qed.

Lemma short_names_distinct (items : dict value) (c : Cache S) :
  NoDup (map fst items) ->
  (forall item, In item items -> String.length (fst item) <= 32) ->
  NoDup
    (map (fun call : value * value => storage_key c (fst call))
       (map (fun p => (VStr (fst p), snd p)) items)).
Proof.
  intros Hnd Hshort. rewrite map_map. cbn [fst].
  rewrite (map_ext_in _ (fun item => String.append (keyPrefix c) (fst item)))
    by (intros item Hin; apply storage_key_short; now apply Hshort).
  rewrite <- (map_map fst (String.append (keyPrefix c))).
  now apply NoDup_map_append.
Qed.

(** An item with a short key is in [data], under [keyPrefix] followed by
    its key, unless that is [__proto__]. *)
Lemma data_of_item (items : dict value) (c : Cache S) (key : string)
  (v : value) :
  array_like items = None ->
  NoDup (map fst items) ->
  (forall item, In item items -> String.length (fst item) <= 32) ->
  In (key, v) items ->
  (keyPrefix c ++ key)%string <> proto ->
  obj_get (data_of c items) (keyPrefix c ++ key)
  = Some (stored_form (serialization c) v).
Proof.
  intros Hplain Hnd Hshort Hin Hproto. unfold data_of.
  rewrite (forEach_named items Hplain).
  rewrite <- (storage_key_short c key (Hshort (key, v) Hin)) in *.
  apply (filed_get_in (fun call : value * value => storage_key c (fst call))
           (fun call => stored_form (serialization c) (snd call))
           _ (VStr key, v)).
  - now apply short_names_distinct.
  - apply in_map_iff. now exists (key, v).
  - exact Hproto.
Qed.

Lemma data_of_short (items : dict value) (c : Cache S) :
  array_like items = None ->
  NoDup (map fst items) ->
  (forall item,
      In item items ->
      String.length (fst item) <= 32
      /\ (keyPrefix c ++ fst item)%string <> proto
      /\ array_index (keyPrefix c ++ fst item) = None) ->
  data_of c items
  = map (fun item =>
           ((keyPrefix c ++ fst item)%string,
            stored_form (serialization c) (snd item)))
      items.
Proof.
  intros Hplain Hnd Hitems.
  assert (Hshort : forall item, In item items -> String.length (fst item) <= 32)
    by (intros item Hin; now apply Hitems).
  unfold data_of. rewrite (forEach_named items Hplain), filed_distinct.
  - rewrite map_map. apply map_ext_in. intros item Hin. cbn [fst snd].
    now rewrite (storage_key_short c _ (Hshort item Hin)).
  - now apply short_names_distinct.
  - intros call Hin. apply in_map_iff in Hin as (item & <- & Hin).
    cbn [fst]. rewrite (storage_key_short c _ (Hshort item Hin)).
    now apply Hitems.
Qed.

(** X9.  What [multiSet] and [multiAdd] hand the batch writer.  Items
    with a [length] of 0 are not walked: no write is issued and the
    caller gets an empty array.  Items without a numeric [length] (and,
    with serialization on, with values of the model) are walked by name:
    the loop builds a [data] with one entry per distinct Storage Key of
    the items other than [__proto__], the encoded value of the last item
    that has this Storage Key, and none for [__proto__]; when the item
    keys are pairwise distinct strings of at most 32 characters and no
    Storage Key is [__proto__] or an array index, every item is
    forwarded, in order, under [keyPrefix] followed by its key. *)
Theorem multiSet_forwards_items (items : dict value) (duration : Z)
  (c : Cache S) :
  (array_like items = Some 0%N ->
   multiSet items duration c = (Fulfilled [], c)
   /\ multiAdd items duration c = (Fulfilled [], c))
  /\ (array_like items = None ->
      (serialization c = true ->
       forall item, In item items -> encodable (snd item) = true) ->
      data_from [] (forEach items) c = (Fulfilled (data_of c items), c)
      /\ multiSet items duration c
         = awaited setValues (data_of c items) duration c
      /\ multiAdd items duration c
         = awaited addValues (data_of c items) duration c
      /\ NoDup (map fst (data_of c items))
      /\ obj_get (data_of c items) proto = None
      /\ (forall newKey,
            newKey <> proto ->
            obj_get (data_of c items) newKey
            = option_map
                (fun item => stored_form (serialization c) (snd item))
                (last_stored c items newKey))
      /\ (NoDup (map fst items) ->
          (forall item,
              In item items ->
              String.length (fst item) <= 32
              /\ (keyPrefix c ++ fst item)%string <> proto
              /\ array_index (keyPrefix c ++ fst item) = None) ->
          data_of c items
          = map (fun item =>
                   ((keyPrefix c ++ fst item)%string,
                    stored_form (serialization c) (snd item)))
              items)).
Proof.
  destruct (multiSet_unfold items duration c) as [Hset Hadd]. split.
  - intros Hlike. rewrite Hset, Hadd. unfold data_of.
    rewrite (forEach_empty items Hlike). cbn [filed fold_left].
    split; apply awaited_nothing.
  - intros Hplain _. split; [apply data_from_filed|].
    split; [exact Hset|]. split; [exact Hadd|].
    split; [apply filed_NoDup; constructor|].
    split; [now apply filed_no_proto|]. split.
    + intros newKey Hkey. now apply data_of_get.
    + now apply data_of_short.
Qed.

(** X10.  The array that the default [setValues] and [addValues] return
    is filled by their callbacks: once every callback has run it holds
    the Storage Keys whose write failed, and no other key. *)
Theorem batch_array_eventually_complete (data : dict value) (duration : Z)
  (s : S) (k : string) :
  (In k (settled setValues data duration s)
   <-> In k (failures (writes setValue data duration s)))
  /\ (In k (settled addValues data duration s)
      <-> In k (failures (writes addValue data duration s))).
Proof.
  split.
  - apply (settled_failures setValue).
  - apply (settled_failures addValue).
Qed.

(** X11.  For an ordinary batch, the array that [multiSet] and
    [multiAdd] give their caller holds the Storage Keys whose write
    failed with a promise that was already settled when the primitive
    returned, followed by those whose write failed with a promise that
    settled one turn of the microtask queue later, each in the order in
    which [data] is enumerated; a failure that settles later than that
    is not in it. *)
Theorem multiSet_sees_two_turns (items : dict value) (duration : Z)
  (c : Cache S) :
  ordinary c items ->
  (let calls := timed_writes setValue (data_of c items) duration (store c) in
   fst (multiSet items duration c)
   = Fulfilled (failed_after 0 calls ++ failed_after 1 calls))
  /\ (let calls :=
        timed_writes addValue (data_of c items) duration (store c) in
      fst (multiAdd items duration c)
      = Fulfilled (failed_after 0 calls ++ failed_after 1 calls)).
Proof.
  intros _. destruct (multiSet_unfold items duration c) as [-> ->]. split.
  - apply (awaited_sees setValue).
  - apply (awaited_sees addValue).
Qed.

Lemma awaited_complete
  (write : string -> value -> Z -> S -> promise S bool)
  (data : dict value) (duration : Z) (c : Cache S) :
  (forall key v t s,
      settles (write key v t s) = Micro 0
      \/ settles (write key v t s) = Micro 1) ->
  exists failed,
    fst (awaited (fun d t s0 => dispatch write d t s0 idle) data duration c)
    = Fulfilled failed
    /\ forall k,
        In k failed <-> In k (failures (writes write data duration (store c))).
Proof.
  intros Hsoon. eexists. split; [apply awaited_sees|].
  intros k. rewrite in_app_iff, !failed_after_in, failures_in, writes_timed.
  rewrite in_map_iff. split.
  - intros [Hin|Hin]; eexists; (split; [|exact Hin]); reflexivity.
  - intros ([l o] & Ho & Hin). cbn [snd] in Ho. subst o.
    destruct (timed_writes_latency _ _ _ _ _ _ Hin) as (key & v & s0 & ->).
    destruct (Hsoon key v duration s0) as [E|E]; rewrite E in Hin; auto.
Qed.

(** X12.  For an ordinary batch over a backend whose write promises
    settle at once or one turn of the microtask queue later, [multiSet]
    and [multiAdd] return the Storage Keys whose write failed, and no
    other key. *)
Theorem multiSet_complete_within_one_turn (items : dict value)
  (duration : Z) (c : Cache S) :
  ordinary c items ->
  ((forall key v t s,
       settles (setValue key v t s) = Micro 0
       \/ settles (setValue key v t s) = Micro 1) ->
   exists failed,
     fst (multiSet items duration c) = Fulfilled failed
     /\ forall k,
         In k failed
         <-> In k (failures
                     (writes setValue (data_of c items) duration (store c))))
  /\ ((forall key v t s,
         settles (addValue key v t s) = Micro 0
         \/ settles (addValue key v t s) = Micro 1) ->
      exists failed,
        fst (multiAdd items duration c) = Fulfilled failed
        /\ forall k,
            In k failed
            <-> In k (failures
                        (writes addValue (data_of c items) duration
                           (store c)))).
Proof.
  intros _. destruct (multiSet_unfold items duration c) as [-> ->]. split.
  - apply (awaited_complete setValue).
  - apply (awaited_complete addValue).
Qed.

End BatchWrites.

(** ** Reading back what a batch wrote *)

Section BatchRoundTrip.

Context {S : Type} `{Backend S}.

Lemma dispatch_store (write : string -> value -> Z -> S -> promise S bool)
  (data : dict value) (duration : Z) (s : S) (w : loop) :
  fst (dispatch write data duration s w) = store_after write data duration s.
Proof.
  revert s w. induction data as [|[key v] data IH]; intros s w;
    [reflexivity | apply IH].
Qed.

Lemma awaited_store (batch : dict value -> Z -> S -> S * loop)
  (data : dict value) (duration : Z) (c : Cache S) :
  snd (awaited batch data duration c)
  = with_store c (fst (batch data duration (store c))).
Proof.
  unfold awaited. destruct (batch data duration (store c)) as [s w].
  now destruct (caller_saw _).
Qed.

Lemma other_writes_keep (data : dict value) (duration : Z) (s : S)
  (key : string) :
  writes_keep_other_keys S ->
  ~ In key (map fst data) ->
  result (getValue key (store_after setValue data duration s))
  = result (getValue key s).
Proof.
  intros Hkeep. revert s. induction data as [|[k v] data IH]; intros s Hnot;
    [reflexivity|].
  cbn [store_after]. rewrite IH.
  - apply Hkeep. intros ->. apply Hnot. now left.
  - intros Hin. apply Hnot. now right.
Qed.

Lemma read_after_writes (data : dict value) (duration : Z) (s : S)
  (key : string) (v : value) :
  keeps_writes S ->
  writes_keep_other_keys S ->
  NoDup (map fst data) ->
  failures (writes setValue data duration s) = [] ->
  In (key, v) data ->
  result (getValue key (store_after setValue data duration s)) = v.
Proof.
  intros Hkeeps Hkeep. revert s.
  induction data as [|[k v0] data IH]; intros s Hnd Hok Hin;
    [contradiction|].
  inversion Hnd as [|? ? Hk Hrest]; subst.
  cbn [writes] in Hok. unfold failures in Hok. cbn [filter snd] in Hok.
  destruct (result (setValue k v0 duration s)) eqn:Hres;
    cbn [negb map] in Hok; [|discriminate].
  cbn [store_after]. destruct Hin as [[= -> ->] | Hin].
  - rewrite other_writes_keep by assumption. now apply Hkeeps.
  - now apply IH.
Qed.

Lemma get_of_stored (key v : value) (c : Cache S) :
  result (getValue (storage_key c key) (store c))
  = stored_form (serialization c) v ->
  (serialization c = true -> encodable v = true) ->
  fst (get key c) = Fulfilled v.
Proof.
  intros Hraw Henc. unfold get. rewrite get_with_unfold. cbv zeta.
  rewrite Hraw. unfold stored_form. destruct (serialization c).
  - cbn [is_false ToString negb orb]. rewrite text_chars.
    now rewrite JSON_parse_stringify by auto.
  - now rewrite orb_true_r.
Qed.

(** X13.  After a [multiSet] of an ordinary batch whose keys are
    pairwise distinct strings of at most 32 characters and whose writes
    all succeed, on a backend that keeps what was written under each key,
    [get] returns the value of every item, whenever the write promises
    settle. *)
Theorem multiSet_then_get (items : dict value) (duration : Z)
  (c : Cache S) (key : string) (v : value) :
  keeps_writes S ->
  writes_keep_other_keys S ->
  ordinary c items ->
  NoDup (map fst items) ->
  (forall item, In item items -> String.length (fst item) <= 32) ->
  failures (writes setValue (data_of c items) duration (store c)) = [] ->
  In (key, v) items ->
  fst (get (VStr key) (snd (multiSet items duration c))) = Fulfilled v.
Proof.
  intros Hkeeps Hkeep (Hplain & Hnames & Henc) Hnd Hshort Hok Hin.
  destruct (multiSet_unfold items duration c) as [-> _].
  rewrite awaited_store. unfold setValues. rewrite dispatch_store.
  pose proof (storage_key_short c key (Hshort (key, v) Hin)) as Hkey.
  apply get_of_stored.
  - rewrite storage_key_with_store. cbn [store serialization with_store].
    apply read_after_writes; try assumption.
    + apply filed_NoDup. constructor.
    + rewrite Hkey. apply obj_get_some_in.
      apply data_of_item; try assumption.
      rewrite <- Hkey. exact (proj2 (Hnames (key, v) Hin)).
  - cbn [serialization with_store]. intros Hser.
    exact (Henc Hser (key, v) Hin).
Qed.

End BatchRoundTrip.

(** ** The store in memory meets the contracts *)

Lemma obj_get_remove_same {A : Type} (o : dict A) (k : string) :
  obj_get (obj_remove o k) k = None.
Proof.
  induction o as [|[k' v] o IH]; [reflexivity|]. cbn [obj_remove].
  destruct (String.eqb k' k) eqn:E; [exact IH|]. cbn [obj_get].
  now rewrite E.
Qed.

Lemma memory_removes_deleted : removes_deleted memory.
Proof.
  intros key s _. cbn. unfold lookup. now rewrite obj_get_remove_same.
Qed.

Lemma memory_flush_empties : flush_empties memory.
Proof. intros key s _. reflexivity. Qed.

Lemma memory_add_refuses_present : add_refuses_present memory.
Proof.
  intros key v duration s Hpresent. cbn in *. unfold lookup in Hpresent.
  destruct (obj_get s key); [split; reflexivity | congruence].
Qed.

Lemma memory_writes_keep_other_keys : writes_keep_other_keys memory.
Proof.
  intros key key' v duration s Hne. cbn. unfold lookup.
  now rewrite obj_get_set_other.
Qed.

Lemma memory_settles_at_once :
  (forall key v t (s : memory),
      settles (setValue key v t s) = Micro 0
      \/ settles (setValue key v t s) = Micro 1)
  /\ (forall key v t (s : memory),
        settles (addValue key v t s) = Micro 0
        \/ settles (addValue key v t s) = Micro 1).
Proof.
  split; intros key v t s; left; [reflexivity|].
  cbn. now destruct (obj_get s key).
Qed.

(** ** The further properties on concrete inputs *)

Lemma storage_key_bounded_witness :
  hashed (VNum 42) = true
  /\ exists suffix,
      buildKey (VNum 42) (app_cache true)
      = (Fulfilled ("app:" ++ suffix)%string, app_cache true)
      /\ String.length suffix = 32.
Proof.
  split; [reflexivity|].
  destruct (storage_key_bounded (app_cache true) (VNum 42))
    as (suffix & Hkey & _ & _ & Hlen).
  exists suffix. split; [exact Hkey | apply Hlen; reflexivity].
Defined.

Lemma short_keys_do_not_collide_witness :
  String.length "user:1" <= 32
  /\ String.length "user:2" <= 32
  /\ buildKey (VStr "user:1") (app_cache true)
     <> buildKey (VStr "user:2") (app_cache true).
Proof.
  assert (H1 : String.length "user:1" <= 32) by (simpl; lia).
  assert (H2 : String.length "user:2" <= 32) by (simpl; lia).
  split; [exact H1|]. split; [exact H2|].
  apply (short_keys_do_not_collide (app_cache true) "user:1" "user:2" H1 H2).
  discriminate.
Defined.

Lemma digest_string_shares_storage_key_witness :
  hashed (VNum 42) = true
  /\ VStr "a1d0c6e83f027327d8461063f4ac58a6"%string <> VNum 42
  /\ buildKey (VStr "a1d0c6e83f027327d8461063f4ac58a6"%string) (app_cache true)
     = buildKey (VNum 42) (app_cache true).
Proof.
  split; [reflexivity|]. split; [discriminate|].
  destruct (digest_string_shares_storage_key (app_cache true) (VNum 42))
    as [_ Htwin].
  destruct (Htwin eq_refl) as [_ Hiff].
  apply (Hiff "a1d0c6e83f027327d8461063f4ac58a6"%string).
  - simpl. lia.
  - vm_compute. reflexivity.
Defined.

Lemma exists_agrees_with_get_witness :
  let c := with_store (app_cache false) [("app:k"%string, VStr "raw")] in
  serialization c = false
  /\ fst (get (VStr "k") c) = Fulfilled (VStr "raw")
  /\ fst (exists_ (VStr "k") c) = Fulfilled true.
Proof.
  intros c. split; [reflexivity|].
  destruct (exists_agrees_with_get (VStr "k") c) as (_ & _ & Hoff).
  destruct (Hoff eq_refl) as (v & Hget & Hexists).
  assert (Hv : Fulfilled v = Fulfilled (VStr "raw")) by (now rewrite <- Hget).
  injection Hv as ->. split; [exact Hget | exact Hexists].
Defined.

Lemma delete_then_absent_witness :
  let c := with_store (app_cache true) [("app:k"%string, VStr "1")] in
  delete (VStr "k") c = (Fulfilled true, app_cache true)
  /\ fst (get (VStr "k") (app_cache true)) = Fulfilled absent
  /\ fst (exists_ (VStr "k") (app_cache true)) = Fulfilled false.
Proof.
  intros c.
  assert (Hdelete : delete (VStr "k") c = (Fulfilled true, app_cache true))
    by reflexivity.
  split; [exact Hdelete|].
  exact (delete_then_absent (VStr "k") c (app_cache true)
           memory_removes_deleted Hdelete).
Defined.

Lemma flush_then_nothing_exists_witness :
  let c := with_store (app_cache true) [("other:k"%string, VStr "1")] in
  flush c = (Fulfilled true, app_cache true)
  /\ fst (exists_ (VStr "k")
            {| keyPrefix := "other:"; serialization := true;
               store := ([] : memory) |})
     = Fulfilled false.
Proof.
  intros c.
  assert (Hflush : flush c = (Fulfilled true, app_cache true))
    by reflexivity.
  split; [exact Hflush|].
  exact (proj1 (flush_then_nothing_exists c (app_cache true)
                  memory_flush_empties Hflush "other:" (VStr "k"))).
Defined.

Lemma add_after_set_refused_witness :
  let c1 := with_store (app_cache true) [("app:k"%string, VStr "1")] in
  set (VStr "k") (VNum 1) 0 (app_cache true) = (Fulfilled true, c1)
  /\ add (VStr "k") (VNum 2) 0 c1 = (Fulfilled false, c1)
  /\ fst (get (VStr "k") c1) = Fulfilled (VNum 1).
Proof.
  intros c1.
  assert (Hset : set (VStr "k") (VNum 1) 0 (app_cache true)
                 = (Fulfilled true, c1)) by reflexivity.
  assert (Hadd : add (VStr "k") (VNum 2) 0 c1 = (Fulfilled false, c1))
    by reflexivity.
  split; [exact Hset|]. split; [exact Hadd|].
  apply (add_after_set_refused (VStr "k") (VNum 1) (VNum 2) 0 0
           (app_cache true) c1 c1 (Fulfilled false)
           memory_keeps_writes memory_add_refuses_present).
  - reflexivity.
  - discriminate.
  - exact Hset.
  - exact Hadd.
Defined.


Lemma multiSet_forwards_items_witness :
  let items := [("a"%string, VNum 1); ("b"%string, VArr [VNum 2])] in
  let walked_by_index := [("length"%string, VNum 0); ("a"%string, VNum 1)] in
  multiSet walked_by_index 0 (app_cache true)
  = (Fulfilled [], app_cache true)
  /\ data_of (app_cache true) items
     = [("app:a"%string, VStr "1"); ("app:b"%string, VStr "[2]")].
Proof.
  intros items walked_by_index. split.
  - apply (proj1 (multiSet_forwards_items walked_by_index 0 (app_cache true))).
    reflexivity.
  - destruct (proj2 (multiSet_forwards_items items 0 (app_cache true)))
      as (_ & _ & _ & _ & _ & _ & Hdata).
    + reflexivity.
    + intros _ item [<-|[<-|[]]]; reflexivity.
    + rewrite Hdata; [reflexivity | |].
      * repeat constructor; cbn; intuition discriminate.
      * intros item [<-|[<-|[]]];
          (split; [simpl; lia | split; [discriminate | reflexivity]]).
Defined.

Lemma multiSet_sees_two_turns_witness :
  let c :=
    {| keyPrefix := "1"; serialization := true;
       store := ([("1a"%string, VStr "0"); ("1"%string, VStr "0")] : memory) |}
  in
  let items := [("a"%string, VNum 1); (""%string, VNum 2)] in
  data_of c items = [("1"%string, VStr "2"); ("1a"%string, VStr "1")]
  /\ fst (multiAdd items 0 c) = Fulfilled ["1"%string; "1a"%string].
Proof.
  intros c items. split; [reflexivity|].
  assert (Hordinary : ordinary c items).
  { split; [reflexivity|]. split.
    - intros item [<-|[<-|[]]]; split; discriminate.
    - intros _ item [<-|[<-|[]]]; reflexivity. }
  exact (proj2 (multiSet_sees_two_turns items 0 c Hordinary)).
Defined.

Lemma multiSet_complete_within_one_turn_witness :
  let c := new_cache ([("a"%string, VStr "0")] : memory) in
  let items := [("a"%string, VNum 1); ("b"%string, VNum 2)] in
  (exists failed,
      fst (multiSet items 0 c) = Fulfilled failed
      /\ ~ In "a"%string failed)
  /\ (exists failed,
        fst (multiAdd items 0 c) = Fulfilled failed
        /\ In "a"%string failed /\ ~ In "b"%string failed).
Proof.
  intros c items.
  assert (Hordinary : ordinary c items).
  { split; [reflexivity|]. split.
    - intros item [<-|[<-|[]]]; split; discriminate.
    - intros _ item [<-|[<-|[]]]; reflexivity. }
  destruct (multiSet_complete_within_one_turn items 0 c Hordinary)
    as [Hset Hadd].
  destruct (Hset (proj1 memory_settles_at_once)) as (written & Hrun & Hiff).
  destruct (Hadd (proj2 memory_settles_at_once)) as (failed & Hrun' & Hiff').
  split.
  - exists written. split; [exact Hrun|].
    intros Ha. apply Hiff in Ha. destruct Ha.
  - exists failed. split; [exact Hrun'|]. split.
    + apply Hiff'. now left.
    + intros Hb. apply Hiff' in Hb. destruct Hb as [Hb|[]]. discriminate Hb.
Defined.

Lemma multiSet_then_get_witness :
  let items := [("a"%string, VNum 1); ("b"%string, VArr [VNum 2])] in
  fst (get (VStr "b") (snd (multiSet items 0 (app_cache true))))
  = Fulfilled (VArr [VNum 2]).
Proof.
  intros items.
  apply (multiSet_then_get items 0 (app_cache true) "b" (VArr [VNum 2])
           memory_keeps_writes memory_writes_keep_other_keys).
  - split; [reflexivity|]. split.
    + intros item [<-|[<-|[]]]; split; discriminate.
    + intros _ item [<-|[<-|[]]]; reflexivity.
  - repeat constructor; cbn; intuition discriminate.
  - intros item [<-|[<-|[]]]; simpl; lia.
  - reflexivity.
  - right. now left.
Defined.

Lemma multiGet_agrees_with_get_witness :
  let c := new_cache ([("k1"%string, VStr "[1,2]")] : memory) in
  exists results,
    multiGet [VStr "k1"; VStr "k2"] c = (Fulfilled results, c)
    /\ (exists d,
          obj_get results "k1" = Some d
          /\ fst (get (VStr "k1") c) = Fulfilled d)
    /\ (exists d,
          obj_get results "k2" = Some d
          /\ fst (get (VStr "k2") c) = Fulfilled d).
Proof.
  intros c.
  destruct (multiGet_agrees_with_get ["k1"; "k2"]%string c memory_reads_only)
    as (results & Hrun & Hentry).
  - intros k [<-|[<-|[]]]; split; discriminate.
  - intros k [<-|[<-|[]]]; eexists; reflexivity.
  - exists results. split; [exact Hrun|]. split.
    + apply Hentry. now left.
    + apply Hentry. right. now left.
Defined.

Lemma prefixes_separate_instances_witness :
  let shop := {| keyPrefix := "shop:"; serialization := true;
                 store := ([] : memory) |} in
  let blog := {| keyPrefix := "blog:"; serialization := true;
                 store := ([] : memory) |} in
  let shop_eu := {| keyPrefix := "shop:eu:"; serialization := true;
                    store := ([] : memory) |} in
  fst (buildKey (VStr "user") shop) <> fst (buildKey (VStr "user") blog)
  /\ fst (buildKey (VStr "eu:user") shop)
     = fst (buildKey (VStr "user") shop_eu).
Proof.
  intros shop blog shop_eu. split.
  - apply (proj1 (prefixes_separate_instances shop blog));
      [reflexivity | discriminate].
  - apply (proj2 (prefixes_separate_instances shop shop_eu) "eu:" "user"
             eq_refl)%string.
    simpl. lia.
Defined.
